(** * Rsync_aligner (tools/Rsync.py): a shallow embedding

    The aligner of [tools/Rsync.py] matches chunks of inter-pulse intervals of
    a pulse train A against a pulse train B, labels the chunks with a two
    component mixture and builds two correspondence arrays that [np.interp]
    reads back.

    Numbers.  Finite floats are exact rationals ([Q]).  The only non finite
    values the program creates are the [nan] entries of the correspondence
    arrays and the [-inf]/[nan] logarithms that line 43 discards, so an array
    that may hold [nan] is a [list (option Q)] ([None] is [nan]) and the
    logarithm is kept symbolic: the mixture receives the mean squared errors
    whose logarithm is finite, that is the positive ones.

    Rounding.  The program computes in binary64.  What the loops do with
    indices, lengths, slices and flags does not depend on rounding.  The
    error profile of lines 33-34 does: it is an expanded square, and in
    binary64 its three terms cancel ([F64] replays the lines on primitive
    floats; [sweep_cancels_counterexample]).  Statements that rest on the
    value of an error (equality with the direct mean squared error, its sign,
    the test for an exact match, the best offset of an exact match) are
    therefore stated for trains of integer pulse times inside a range,
    [exact_trains], in which every square, product and partial sum of lines
    24 and 33-34 is an integer below [2^53] that binary64 holds without
    rounding, so that the program and the model divide the same integer by
    [chunk_size] ([sweep_numerator_exact]).  The simulator's running sums are
    64 bit integers converted to binary64 ([cumsum_int64], [astype_float]).

    Library calls.  [np.diff], [np.arange], [np.correlate], [np.sum],
    [np.argmin], [np.sort], indexing, slicing, slice assignment and
    [np.interp] are modelled by what NumPy computes, with the exceptions NumPy
    raises.  The fitted [GaussianMixture] is a parameter of the development.

    Besides the constructor and the two converters, the file covers the
    timing errors that the diagnostic plot shows and [simulate_pulses], whose
    random draws are arguments of the model. *)

From Stdlib Require Import List Arith ZArith Lia Bool QArith Lqa Permutation Sorted.
From Stdlib Require Import Floats.
Import ListNotations.

Close Scope Q_scope.
Set Implicit Arguments.

(** ** Exceptions *)

Inductive exn : Set := ValueError | IndexError | ZeroDivisionError.

Inductive result (A : Type) : Type :=
| Ok (a : A)
| Raise (e : exn).

Arguments Ok {A} a.
Arguments Raise {A} e.

Definition bind {A B : Type} (r : result A) (k : A -> result B) : result B :=
  match r with
  | Ok a => k a
  | Raise e => Raise e
  end.

Notation "x <- r ;; k" := (bind r (fun x => k))
  (at level 61, r at next level, right associativity).

Fixpoint mapM {A B : Type} (f : A -> result B) (l : list A) : result (list B) :=
  match l with
  | [] => Ok []
  | a :: l' => b <- f a ;; bs <- mapM f l' ;; Ok (b :: bs)
  end.

(** ** The NumPy operations the aligner calls *)

Module Np.

Definition Qltb (x y : Q) : bool := negb (Qle_bool y x).

(** [np.diff]: consecutive differences, empty for fewer than two entries. *)
Fixpoint diff (l : list Q) : list Q :=
  match l with
  | [] => []
  | x :: l' =>
      match l' with
      | [] => []
      | y :: _ => (y - x)%Q :: diff l'
      end
  end.

(** [np.arange(0, stop, step)] for a non negative [stop] (a negative one gives
    the empty range, as does 0 here): the [ceil(stop / step)] multiples of
    [step] below [stop]; a zero step is an error. *)
Definition arange (stop step : nat) : result (list nat) :=
  match step with
  | O => Raise ZeroDivisionError
  | S _ => Ok (map (fun i => i * step) (seq 0 ((stop + step - 1) / step)))
  end.

Definition square (l : list Q) : list Q := map (fun x => (x * x)%Q) l.

Definition ones (n : nat) : list Q := repeat 1%Q n.

Definition sum (l : list Q) : Q := fold_left Qplus l 0%Q.

(** [l[start:stop]] for non negative bounds: clipped, never an error. *)
Definition slice {A : Type} (l : list A) (start stop : nat) : list A :=
  firstn (stop - start) (skipn start l).

(** [l[i]] for a non negative index. *)
Definition getitem {A : Type} (l : list A) (i : nat) : result A :=
  match nth_error l i with
  | Some x => Ok x
  | None => Raise IndexError
  end.

(** Inner product of two sequences of one length. *)
Fixpoint dot (a v : list Q) : Q :=
  match a, v with
  | x :: a', y :: v' => (x * y + dot a' v')%Q
  | _, _ => 0%Q
  end.

(** [np.correlate(a, v, mode='valid')]: [c[k] = sum_n a[n+k] * v[n]] at every
    lag at which the shorter sequence lies inside the longer one, by
    increasing lag.  The result has [max - min + 1] entries; when [a] is the
    shorter one the lags are negative.  An empty argument is an error. *)
Definition correlate (a v : list Q) : result (list Q) :=
  match a, v with
  | [], _ | _, [] => Raise ValueError
  | _, _ =>
      if length v <=? length a
      then Ok (map (fun k => dot (slice a k (k + length v)) v)
                   (seq 0 (length a - length v + 1)))
      else let d := length v - length a in
           Ok (map (fun i => dot a (slice v (d - i) (d - i + length a)))
                   (seq 0 (d + 1)))
  end.

(** Element-wise binary operation on one dimensional arrays, with NumPy's
    broadcasting of a one element array. *)
Definition broadcast2 (op : Q -> Q -> Q) (a b : list Q) : result (list Q) :=
  if length a =? length b then Ok (map (fun p => op (fst p) (snd p)) (combine a b))
  else match a, b with
       | [x], _ => Ok (map (op x) b)
       | _, [y] => Ok (map (fun x => op x y) a)
       | _, _ => Raise ValueError
       end.

(** [np.argmin]: index of the first occurrence of the minimum. *)
Fixpoint argmin_from (best : nat) (bv : Q) (i : nat) (l : list Q) : nat :=
  match l with
  | [] => best
  | x :: l' =>
      if Qltb x bv then argmin_from i x (S i) l'
      else argmin_from best bv (S i) l'
  end.

Definition argmin (l : list Q) : result nat :=
  match l with
  | [] => Raise ValueError
  | x :: l' => Ok (argmin_from 0 x 1 l')
  end.

(** [np.sort]: the entries in non decreasing order. *)
Fixpoint insert (x : Q) (l : list Q) : list Q :=
  match l with
  | [] => [x]
  | y :: l' => if Qle_bool x y then x :: l else y :: insert x l'
  end.

Fixpoint sort (l : list Q) : list Q :=
  match l with
  | [] => []
  | x :: l' => insert x (sort l')
  end.

(** [np.isfinite(np.log(x))] on a finite [x]: the logarithm is [-inf] at 0 and
    [nan] below. *)
Definition log_isfinite (x : Q) : bool := Qltb 0 x.

(** [np.full(n, np.nan)]. *)
Definition full_nan (n : nat) : list (option Q) := repeat None n.

(** [l[start:stop] = v] on a one dimensional array: the clipped slice takes
    [v] when the shapes agree, a one element [v] is broadcast, and anything
    else is an error. *)
Definition set_slice {A : Type} (l : list A) (start stop : nat) (v : list A)
  : result (list A) :=
  let n := length (slice l start stop) in
  if length v =? n
  then Ok (firstn start l ++ v ++ skipn (start + n) l)
  else match v with
       | [x] => Ok (firstn start l ++ repeat x n ++ skipn (start + n) l)
       | _ => Raise ValueError
       end.

(** [np.interp(x, xp, fp, left=nan, right=nan)] for increasing [xp].
    With [j] the last index such that [xp[j] <= x]: [left] when there is none,
    [right] when [x] is beyond the last sample point, [fp[j]] when
    [x == xp[j]], and otherwise
    [(fp[j+1] - fp[j]) / (xp[j+1] - xp[j]) * (x - xp[j]) + fp[j]], which is
    [nan] as soon as [fp[j]] or [fp[j+1]] is. *)
Definition lerp (x0 : Q) (y0 : option Q) (x1 : Q) (y1 : option Q) (x : Q)
  : option Q :=
  match y0, y1 with
  | Some a, Some b => Some ((b - a) / (x1 - x0) * (x - x0) + a)%Q
  | _, _ => None
  end.

Fixpoint interp_from (x x0 : Q) (y0 : option Q) (rest : list (Q * option Q))
  : option Q :=
  match rest with
  | [] => if Qeq_bool x x0 then y0 else None
  | (x1, y1) :: rest' =>
      if Qltb x x1
      then if Qeq_bool x x0 then y0 else lerp x0 y0 x1 y1 x
      else interp_from x x1 y1 rest'
  end.

Definition interp (x : Q) (xp : list Q) (fp : list (option Q))
  : result (option Q) :=
  if negb (length xp =? length fp) then Raise ValueError
  else match combine xp fp with
       | [] => Raise ValueError
       | (x0, y0) :: rest =>
           Ok (if Qltb x x0 then None else interp_from x x0 y0 rest)
       end.

End Np.

(** ** The aligner *)

(** The state [__init__] stores (lines 55-58). *)
Record Rsync_aligner : Type := {
  pulse_times_A : list Q;
  pulse_times_B : list Q;
  cor_times_A : list (option Q);
  cor_times_B : list (option Q)
}.

(** What the matching loop records for one chunk (lines 35-38). *)
Record chunk_fit : Type := {
  best_offset : nat;
  min_mse : Q;
  second_mse : Q
}.

(** Lines 33-34: the mean squared error of a chunk against every window of B. *)
Definition mse_profile (intervals_B intervals_B2 chunk_A : list Q)
    (chunk_size : nat) : result (list Q) :=
  c1 <- Np.correlate intervals_B2 (Np.ones chunk_size) ;;
  let s := Np.sum (Np.square chunk_A) in
  c2 <- Np.correlate intervals_B chunk_A ;;
  num <- Np.broadcast2 Qminus (map (fun x => (x + s)%Q) c1)
                              (map (fun y => (2 * y)%Q) c2) ;;
  Ok (map (fun x => (x / inject_Z (Z.of_nat chunk_size))%Q) num).

(** Lines 32-38: the body of the matching loop. *)
Definition match_chunk (intervals_A intervals_B intervals_B2 : list Q)
    (chunk_size csA : nat) : result chunk_fit :=
  let chunk_A := Np.slice intervals_A csA (csA + chunk_size) in
  mse <- mse_profile intervals_B intervals_B2 chunk_A chunk_size ;;
  b <- Np.argmin mse ;;
  let sorted_chunk_min_mse := Np.sort mse in
  m0 <- Np.getitem sorted_chunk_min_mse 0 ;;
  m1 <- Np.getitem sorted_chunk_min_mse 1 ;;
  Ok {| best_offset := b; min_mse := m0; second_mse := m1 |}.

(** Lines 22-38: the chunk starts in A and what the loop records for each. *)
Definition match_chunks (pulse_times_A pulse_times_B : list Q)
    (chunk_size : nat) : result (list nat * list chunk_fit) :=
  let intervals_A := Np.diff pulse_times_A in
  let intervals_B := Np.diff pulse_times_B in
  let intervals_B2 := Np.square intervals_B in
  chunk_starts_A <- Np.arange (length pulse_times_A - chunk_size) chunk_size ;;
  fits <- mapM (match_chunk intervals_A intervals_B intervals_B2 chunk_size)
               chunk_starts_A ;;
  Ok (chunk_starts_A, fits).

(** Lines 42-43: the best errors followed by the second best ones, without
    those whose logarithm is not finite. *)
Definition log_mse (fits : list chunk_fit) : list Q :=
  filter Np.log_isfinite (map min_mse fits ++ map second_mse fits).

(** Lines 50-53: the loop that fills the correspondence arrays. *)
Fixpoint fill (pulse_times_A pulse_times_B : list Q) (chunk_size : nat)
    (chunks : list (nat * nat * bool)) (cor_A cor_B : list (option Q))
  : result (list (option Q) * list (option Q)) :=
  match chunks with
  | [] => Ok (cor_A, cor_B)
  | (csA, csB, valid) :: chunks' =>
      if valid : bool
      then
        cor_A' <- Np.set_slice cor_A csB (csB + chunk_size)
                    (map Some (Np.slice pulse_times_A csA (csA + chunk_size))) ;;
        cor_B' <- Np.set_slice cor_B csA (csA + chunk_size)
                    (map Some (Np.slice pulse_times_B csB (csB + chunk_size))) ;;
        fill pulse_times_A pulse_times_B chunk_size chunks' cor_A' cor_B'
      else fill pulse_times_A pulse_times_B chunk_size chunks' cor_A cor_B
  end.

Section Mixture.

(** The fitted mixture of lines 44-46, from scikit-learn.  [gmm_fit pool] is
    [GaussianMixture(n_components=2, covariance_type='spherical')] fitted to
    the logarithms of [pool]; [gmm_lower m x] tells whether [m.predict]
    puts the logarithm of [x] in the component [np.argmin(m.means_)]. *)
Variable model : Type.
Variable gmm_fit : list Q -> model.
Variable gmm_lower : model -> Q -> bool.

(** Lines 44-46.  scikit-learn refuses to fit fewer than two samples. *)
Definition valid_matches (pool : list Q) : result (list bool) :=
  if length pool <? 2 then Raise ValueError
  else Ok (map (gmm_lower (gmm_fit pool)) pool).

(** Lines 22-46 and the [zip] of line 50: the triples the last loop runs
    over, one per chunk that [zip] reaches, with the chunk's start in A, its
    best offset in B and the flag that classifies it. *)
Definition classify (pulse_times_A pulse_times_B : list Q) (chunk_size : nat)
  : result (list (nat * nat * bool)) :=
  m <- match_chunks pulse_times_A pulse_times_B chunk_size ;;
  let chunk_starts_A := fst m in
  let chunk_starts_B := map best_offset (snd m) in
  valid <- valid_matches (log_mse (snd m)) ;;
  Ok (combine (combine chunk_starts_A chunk_starts_B) valid).

(** [Rsync_aligner.__init__] without the plots. *)
Definition init (pulse_times_A pulse_times_B : list Q) (chunk_size : nat)
  : result Rsync_aligner :=
  chunks <- classify pulse_times_A pulse_times_B chunk_size ;;
  cors <- fill pulse_times_A pulse_times_B chunk_size chunks
            (Np.full_nan (length pulse_times_B))
            (Np.full_nan (length pulse_times_A)) ;;
  Ok {| pulse_times_A := pulse_times_A;
        pulse_times_B := pulse_times_B;
        cor_times_A := fst cors;
        cor_times_B := snd cors |}.

End Mixture.

(** Lines 79-85. *)
Definition A_to_B (self : Rsync_aligner) (times_A : Q) : result (option Q) :=
  Np.interp times_A (pulse_times_A self) (cor_times_B self).

Definition B_to_A (self : Rsync_aligner) (times_B : Q) : result (option Q) :=
  Np.interp times_B (pulse_times_B self) (cor_times_A self).

(** A mixture whose two components meet at [cut]: values below it belong to
    the component of lower mean. *)
Definition cut_fit (cut : Q) (_ : list Q) : Q := cut.
Definition cut_lower (cut x : Q) : bool := Np.Qltb x cut.

Definition Zs (l : list Z) : list Q := map inject_Z l.

(** ** Lines 22-24 and 32-34 in binary64 *)

(** The same lines on primitive floats, which round every operation to
    nearest, ties to even, as NumPy's [float64] does.  [np.sum] and the inner
    products of [np.correlate] add from left to right, as NumPy does on short
    arrays. *)
Module F64.

(** [float(n)] for a small non negative integer. *)
Definition of_nat (n : nat) : float :=
  PrimFloat.of_uint63 (Uint63.of_Z (Z.of_nat n)).

Fixpoint diff (l : list float) : list float :=
  match l with
  | [] => []
  | x :: l' =>
      match l' with
      | [] => []
      | y :: _ => (y - x)%float :: diff l'
      end
  end.

Definition square (l : list float) : list float :=
  map (fun x => (x * x)%float) l.

Definition ones (n : nat) : list float := repeat 1%float n.

Definition sum (l : list float) : float := fold_left PrimFloat.add l 0%float.

Definition dot (a v : list float) : float :=
  fold_left (fun acc p => (acc + fst p * snd p)%float) (combine a v) 0%float.

Definition correlate (a v : list float) : result (list float) :=
  match a, v with
  | [], _ | _, [] => Raise ValueError
  | _, _ =>
      if length v <=? length a
      then Ok (map (fun k => dot (Np.slice a k (k + length v)) v)
                   (seq 0 (length a - length v + 1)))
      else let d := length v - length a in
           Ok (map (fun i => dot a (Np.slice v (d - i) (d - i + length a)))
                   (seq 0 (d + 1)))
  end.

Definition broadcast2 (op : float -> float -> float) (a b : list float)
  : result (list float) :=
  if length a =? length b then Ok (map (fun p => op (fst p) (snd p)) (combine a b))
  else match a, b with
       | [x], _ => Ok (map (op x) b)
       | _, [y] => Ok (map (fun x => op x y) a)
       | _, _ => Raise ValueError
       end.

(** Lines 33-34. *)
Definition mse_profile (intervals_B intervals_B2 chunk_A : list float)
    (chunk_size : nat) : result (list float) :=
  c1 <- correlate intervals_B2 (ones chunk_size) ;;
  let s := sum (square chunk_A) in
  c2 <- correlate intervals_B chunk_A ;;
  num <- broadcast2 PrimFloat.sub (map (fun x => (x + s)%float) c1)
                                  (map (fun y => (2 * y)%float) c2) ;;
  Ok (map (fun x => (x / of_nat chunk_size)%float) num).

(** The direct computation, [np.mean((chunk - window)**2)]. *)
Definition direct_mse (chunk window : list float) : float :=
  let errors := map (fun p => ((fst p - snd p) * (fst p - snd p))%float)
                    (combine chunk window) in
  (sum errors / of_nat (length errors))%float.

End F64.

(** ** Reference definitions the statements use *)


Definition Qnth (l : list Q) (i : nat) : Q := nth i l 0%Q.

Definition sq (x : Q) : Q := (x * x)%Q.


(** The direct computation: the mean of the squared element-wise differences
    between the chunk and the window. *)
Definition direct_mse (IA IB : list Q) (chunk_size c k : nat) : Q :=
  let chunk := Np.slice IA c (c + chunk_size) in
  let window := Np.slice IB k (k + chunk_size) in
  let errors := map (fun p => sq (fst p - snd p)) (combine chunk window) in
  (Np.sum errors / inject_Z (Z.of_nat (length errors)))%Q.

(** The interpolation the specification describes for the converters: the
    sample points whose correspondence is defined, and [np.interp] over those
    alone. *)
Fixpoint defined_points (xp : list Q) (fp : list (option Q)) : list (Q * Q) :=
  match xp, fp with
  | x :: xp', Some y :: fp' => (x, y) :: defined_points xp' fp'
  | _ :: xp', None :: fp' => defined_points xp' fp'
  | _, _ => []
  end.

Definition interp_defined (t : Q) (xp : list Q) (fp : list (option Q))
  : result (option Q) :=
  let pts := defined_points xp fp in
  Np.interp t (map fst pts) (map (fun p => Some (snd p)) pts).






(** ** Predicates and runs the statements use *)

(** The profile when B has at least [chunk_size] intervals: one entry per
    window of B. *)
Definition sweep_entry (IB chunk_A : list Q) (chunk_size k : nat) : Q :=
  ((Np.dot (Np.slice (Np.square IB) k (k + chunk_size)) (Np.ones chunk_size)
    + Np.sum (Np.square chunk_A)
    - 2 * Np.dot (Np.slice IB k (k + chunk_size)) chunk_A)
   / inject_Z (Z.of_nat chunk_size))%Q.

(** [first_min l b]: [b] is the position of the first occurrence of the
    least entry of [l]. *)
Definition first_min (l : list Q) (b : nat) : Prop :=
  b < length l
  /\ (forall j, j < length l -> (Qnth l b <= Qnth l j)%Q)
  /\ (forall j, j < b -> (Qnth l b < Qnth l j)%Q).

(** What lines 35-38 record from a profile with at least two entries. *)
Definition records (mse : list Q) (f : chunk_fit) : Prop :=
  first_min mse (best_offset f)
  /\ (min_mse f == Qnth mse (best_offset f))%Q
  /\ (exists j, j < length mse /\ j <> best_offset f
                /\ (second_mse f == Qnth mse j)%Q)
  /\ (forall j, j < length mse -> j <> best_offset f ->
                (second_mse f <= Qnth mse j)%Q).

(** [written A cs chunks i o]: some chunk among [chunks] flagged as a match
    covers position [i] of the B side with [o], the pulse of A that the chunk
    puts there. *)
Definition written_A (A : list Q) (cs : nat) (chunks : list (nat * nat * bool))
    (i : nat) (o : option (option Q)) : Prop :=
  exists csA csB, In (csA, csB, true) chunks
                  /\ csB <= i < csB + cs
                  /\ o = option_map Some (nth_error A (csA + (i - csB))).

Definition written_B (B : list Q) (cs : nat) (chunks : list (nat * nat * bool))
    (i : nat) (o : option (option Q)) : Prop :=
  exists csA csB, In (csA, csB, true) chunks
                  /\ csA <= i < csA + cs
                  /\ o = option_map Some (nth_error B (csB + (i - csA))).

Definition covered_A (cs : nat) (chunks : list (nat * nat * bool)) (i : nat)
  : Prop :=
  exists csA csB, In (csA, csB, true) chunks /\ csB <= i < csB + cs.

Definition covered_B (cs : nat) (chunks : list (nat * nat * bool)) (i : nat)
  : Prop :=
  exists csA csB, In (csA, csB, true) chunks /\ csA <= i < csA + cs.

(** A run in which both chunks of A are found in B and flagged as matches. *)
Definition run_A : list Q := Zs [0; 1; 3; 6; 10]%Z.
Definition run_B : list Q := Zs [0; 1; 4; 20; 23; 28]%Z.
Definition run_self : Rsync_aligner :=
  {| pulse_times_A := run_A;
     pulse_times_B := run_B;
     cor_times_A := [Some 0; Some 1; None; Some (3 # 1); Some (6 # 1); None]%Q;
     cor_times_B := [Some 0; Some 1; Some (20 # 1); Some (23 # 1); None]%Q |}.



(** ** The diagnostics of [__init__] and the pulse simulator *)





(** Line 70: [timing_errors[~np.isnan(timing_errors)]]. *)
Fixpoint not_nan (l : list (option Q)) : list Q :=
  match l with
  | [] => []
  | Some x :: l' => x :: not_nan l'
  | None :: l' => not_nan l'
  end.







(** ** Relations the further statements use *)

(** Two records of one chunk that agree as exact rationals. *)
Definition fit_eq (f g : chunk_fit) : Prop :=
  best_offset f = best_offset g
  /\ (min_mse f == min_mse g)%Q
  /\ (second_mse f == second_mse g)%Q.

(** Two outcomes of the matching loop that agree: the same exception, or the
    same chunk starts with records that agree. *)
Definition same_matches (r r' : result (list nat * list chunk_fit)) : Prop :=
  match r, r' with
  | Ok m, Ok m' => fst m = fst m' /\ Forall2 fit_eq (snd m) (snd m')
  | Raise e, Raise e' => e = e'
  | _, _ => False
  end.

(** No index of B lies in the windows of two chunks flagged as matches. *)
Definition disjoint_windows (cs : nat) (chunks : list (nat * nat * bool))
  : Prop :=
  forall a b a' b' i,
    In (a, b, true) chunks -> In (a', b', true) chunks ->
    b <= i < b + cs -> b' <= i < b' + cs -> a = a' /\ b = b'.

(** Two results that agree: the same exception, or values related by [R]. *)
Definition result_rel {X : Type} (R : X -> X -> Prop) (r r' : result X) : Prop :=
  match r, r' with
  | Ok x, Ok x' => R x x'
  | Raise e, Raise e' => e = e'
  | _, _ => False
  end.

(** Two floats that may be [nan] and agree as exact rationals. *)
Definition nan_eq (x y : option Q) : Prop :=
  match x, y with
  | Some a, Some b => (a == b)%Q
  | None, None => True
  | _, _ => False
  end.

(** The pulse times of a clock that runs [c] ahead. *)
Definition shift (c : Q) (l : list Q) : list Q := map (Qplus c) l.

(** An aligner seen from clocks that run [a] ahead on A and [b] ahead on B. *)
Definition shift_aligner (a b : Q) (self : Rsync_aligner) : Rsync_aligner :=
  {| pulse_times_A := shift a (pulse_times_A self);
     pulse_times_B := shift b (pulse_times_B self);
     cor_times_A := map (option_map (Qplus a)) (cor_times_A self);
     cor_times_B := map (option_map (Qplus b)) (cor_times_B self) |}.

(** A mixture whose labels depend on the values of the sample only, not on
    the fractions that write them. *)
Definition labels_by_value {model : Type} (gmm_fit : list Q -> model)
    (gmm_lower : model -> Q -> bool) : Prop :=
  forall p p', Forall2 Qeq p p' ->
    map (gmm_lower (gmm_fit p)) p = map (gmm_lower (gmm_fit p')) p'.

(** The result of a computation that may raise, mapped. *)
Definition result_map {X Y : Type} (f : X -> Y) (r : result X) : result Y :=
  match r with
  | Ok x => Ok (f x)
  | Raise e => Raise e
  end.

(** A train whose second chunk repeats the first, aligned with itself. *)
Definition repeat_A : list Q := Zs [0; 1; 3; 4; 6; 9; 14; 18; 25]%Z.
Definition repeat_self : Rsync_aligner :=
  {| pulse_times_A := repeat_A;
     pulse_times_B := repeat_A;
     cor_times_A :=
       [Some (3 # 1); Some (4 # 1); None; None; None; None; None; None; None]%Q;
     cor_times_B :=
       [Some 0; Some 1; Some 0; Some 1; None; None; None; None; None]%Q |}.


(** * Properties *)

Unset Implicit Arguments.

(** ** Results *)

Lemma bind_Ok {A B : Type} (r : result A) (k : A -> result B) (b : B) :
  bind r k = Ok b -> exists a, r = Ok a /\ k a = Ok b.
Proof.
  destruct r as [a|e]; simpl; intros H; [exists a; auto | discriminate].
Qed.

Lemma mapM_Ok_length {A B : Type} (f : A -> result B) (l : list A) (bs : list B) :
  mapM f l = Ok bs -> length bs = length l.
Proof.
  revert bs; induction l as [|a l IH]; simpl; intros bs H.
  - inversion H; reflexivity.
  - apply bind_Ok in H as (b & _ & H).
    apply bind_Ok in H as (bs' & Hbs & H).
    inversion H; subst; simpl; f_equal; auto.
Qed.

Lemma mapM_Ok_nth {A B : Type} (f : A -> result B) (l : list A) (bs : list B) :
  mapM f l = Ok bs ->
  forall i a, nth_error l i = Some a ->
  exists b, nth_error bs i = Some b /\ f a = Ok b.
Proof.
  revert bs; induction l as [|a0 l IH]; simpl; intros bs H i a Hi.
  - destruct i; discriminate.
  - apply bind_Ok in H as (b & Hb & H).
    apply bind_Ok in H as (bs' & Hbs & H).
    inversion H; subst; clear H.
    destruct i as [|i]; simpl in *.
    + inversion Hi; subst; eauto.
    + eapply IH; eauto.
Qed.

(** ** Slices and indexing *)

Lemma slice_length {A : Type} (l : list A) (s n : nat) :
  s + n <= length l -> length (Np.slice l s (s + n)) = n.
Proof.
  intros H; unfold Np.slice.
  rewrite length_firstn, length_skipn; lia.
Qed.

Lemma slice_length_le {A : Type} (l : list A) (s n : nat) :
  length (Np.slice l s (s + n)) = Nat.min n (length l - s).
Proof.
  unfold Np.slice. rewrite length_firstn, length_skipn.
  replace (s + n - s) with n by lia. reflexivity.
Qed.

Lemma slice_nth_error {A : Type} (l : list A) (s n j : nat) :
  j < n -> nth_error (Np.slice l s (s + n)) j = nth_error l (s + j).
Proof.
  intros H; unfold Np.slice.
  replace (s + n - s) with n by lia.
  rewrite nth_error_firstn.
  destruct (Nat.ltb_spec j n); [|lia].
  apply nth_error_skipn.
Qed.



(** ** Sums *)

Lemma fold_left_Qplus (l : list Q) (a : Q) :
  (fold_left Qplus l a == a + fold_left Qplus l 0)%Q.
Proof.
  revert a; induction l as [|x l IH]; simpl; intros a.
  - ring.
  - rewrite (IH (a + x)%Q), (IH (0 + x)%Q). ring.
Qed.

Lemma sum_cons (x : Q) (l : list Q) : (Np.sum (x :: l) == x + Np.sum l)%Q.
Proof.
  unfold Np.sum; simpl. rewrite fold_left_Qplus. ring.
Qed.











Lemma combine_map_same {A B C : Type} (f : A -> B) (g : A -> C) (l : list A) :
  combine (map f l) (map g l) = map (fun x => (f x, g x)) l.
Proof.
  induction l as [|x l IH]; simpl; [reflexivity | now rewrite IH].
Qed.

(** ** The error profile of a chunk *)

Lemma correlate_valid (a v : list Q) :
  0 < length v -> length v <= length a ->
  Np.correlate a v
  = Ok (map (fun k => Np.dot (Np.slice a k (k + length v)) v)
            (seq 0 (length a - length v + 1))).
Proof.
  intros Hv Hle. unfold Np.correlate.
  destruct a as [|x a]; [simpl in *; lia|].
  destruct v as [|y v]; [simpl in *; lia|].
  destruct (Nat.leb_spec (length (y :: v)) (length (x :: a))); [reflexivity|lia].
Qed.

Lemma mse_profile_valid (IB chunk_A : list Q) (chunk_size : nat) :
  0 < chunk_size -> length chunk_A = chunk_size -> chunk_size <= length IB ->
  mse_profile IB (Np.square IB) chunk_A chunk_size
  = Ok (map (sweep_entry IB chunk_A chunk_size)
            (seq 0 (length IB - chunk_size + 1))).
Proof.
  intros Hpos Hlen Hle. unfold mse_profile.
  assert (Hones : length (Np.ones chunk_size) = chunk_size)
    by apply repeat_length.
  assert (Hsq : length (Np.square IB) = length IB) by apply length_map.
  rewrite correlate_valid by (rewrite ?Hones, ?Hsq; assumption).
  rewrite Hones, Hsq. simpl bind.
  rewrite correlate_valid by (rewrite ?Hlen; assumption).
  rewrite Hlen. simpl bind.
  unfold Np.broadcast2. rewrite !length_map, Nat.eqb_refl.
  rewrite !map_map, combine_map_same, !map_map. simpl bind.
  rewrite map_map. reflexivity.
Qed.








(** ** Integer intervals: what binary64 holds without rounding *)







(** ** [np.argmin] and [np.sort] *)

Lemma Qltb_true (x y : Q) : Np.Qltb x y = true <-> (x < y)%Q.
Proof.
  unfold Np.Qltb. rewrite negb_true_iff, <- not_true_iff_false, Qle_bool_iff.
  split; [apply Qnot_le_lt | apply Qlt_not_le].
Qed.

Lemma Qltb_false (x y : Q) : Np.Qltb x y = false <-> (y <= x)%Q.
Proof.
  unfold Np.Qltb. rewrite negb_false_iff. apply Qle_bool_iff.
Qed.

Lemma Qnth_app_l (l1 l2 : list Q) (j : nat) :
  j < length l1 -> Qnth (l1 ++ l2) j = Qnth l1 j.
Proof. intros H; unfold Qnth; apply app_nth1; assumption. Qed.

Lemma Qnth_app_r (l1 l2 : list Q) (j : nat) :
  length l1 <= j -> Qnth (l1 ++ l2) j = Qnth l2 (j - length l1).
Proof. intros H; unfold Qnth; apply app_nth2; assumption. Qed.

Lemma argmin_from_first_min (l pre : list Q) (best : nat) :
  first_min pre best ->
  first_min (pre ++ l) (Np.argmin_from best (Qnth pre best) (length pre) l).
Proof.
  revert pre best; induction l as [|x l IH]; intros pre best H; simpl.
  - rewrite app_nil_r; assumption.
  - destruct H as (Hb & Hle & Hlt).
    assert (Hpre : length (pre ++ [x]) = S (length pre))
      by (rewrite length_app; simpl; lia).
    assert (Hx : Qnth (pre ++ [x]) (length pre) = x)
      by (rewrite Qnth_app_r, Nat.sub_diag by lia; reflexivity).
    replace (pre ++ x :: l) with ((pre ++ [x]) ++ l)
      by (rewrite <- app_assoc; reflexivity).
    destruct (Np.Qltb x (Qnth pre best)) eqn:E.
    + apply Qltb_true in E.
      pose proof (IH (pre ++ [x]) (length pre)) as IH'.
      rewrite Hpre, Hx in IH'. apply IH'. repeat split.
      * lia.
      * intros j Hj. rewrite Hpre in Hj. rewrite Hx.
        destruct (Nat.eq_dec j (length pre)) as [->|Hne].
        -- rewrite Hx. apply Qle_refl.
        -- rewrite Qnth_app_l by lia.
           specialize (Hle j ltac:(lia)). lra.
      * intros j Hj. rewrite Hx, Qnth_app_l by lia.
        specialize (Hle j Hj). lra.
    + apply Qltb_false in E.
      pose proof (IH (pre ++ [x]) best) as IH'.
      rewrite Hpre, Qnth_app_l in IH' by assumption. apply IH'.
      repeat split.
      * lia.
      * intros j Hj. rewrite Hpre in Hj. rewrite Qnth_app_l by assumption.
        destruct (Nat.eq_dec j (length pre)) as [->|Hne].
        -- rewrite Hx. assumption.
        -- rewrite Qnth_app_l by lia. apply Hle; lia.
      * intros j Hj. rewrite !Qnth_app_l by lia. apply Hlt; assumption.
Qed.

Lemma argmin_first_min (l : list Q) :
  l <> [] -> exists b, Np.argmin l = Ok b /\ first_min l b.
Proof.
  destruct l as [|x l]; [congruence|]; intros _.
  exists (Np.argmin_from 0 x 1 l); split; [reflexivity|].
  apply (argmin_from_first_min l [x] 0).
  repeat split; simpl; try lia.
  intros j Hj. replace j with 0 by lia. apply Qle_refl.
Qed.

Lemma insert_perm (x : Q) (l : list Q) : Permutation (Np.insert x l) (x :: l).
Proof.
  induction l as [|y l IH]; simpl; [reflexivity|].
  destruct (Qle_bool x y); [reflexivity|].
  rewrite IH. apply perm_swap.
Qed.

Lemma sort_perm (l : list Q) : Permutation (Np.sort l) l.
Proof.
  induction l as [|x l IH]; simpl; [reflexivity|].
  rewrite insert_perm. apply perm_skip; assumption.
Qed.

Lemma insert_sorted (x : Q) (l : list Q) :
  StronglySorted Qle l -> StronglySorted Qle (Np.insert x l).
Proof.
  induction 1 as [|y l Hs IH Hall]; simpl.
  - repeat constructor.
  - destruct (Qle_bool x y) eqn:E.
    + apply Qle_bool_iff in E. constructor; [constructor; assumption|].
      constructor; [assumption|].
      eapply Forall_impl; [|exact Hall]. intros z Hz; simpl in Hz. lra.
    + assert (Hyx : (y <= x)%Q).
      { apply Qlt_le_weak, Qnot_le_lt. rewrite <- Qle_bool_iff, E. discriminate. }
      constructor; [assumption|].
      rewrite Forall_forall in *. intros z Hz.
      apply (Permutation_in _ (insert_perm x l)) in Hz.
      destruct Hz as [<-|Hz]; auto.
Qed.

Lemma sort_sorted (l : list Q) : StronglySorted Qle (Np.sort l).
Proof.
  induction l as [|x l IH]; simpl; [constructor | apply insert_sorted, IH].
Qed.

Lemma sort_length (l : list Q) : length (Np.sort l) = length l.
Proof. apply Permutation_length, sort_perm. Qed.

(** The second entry of a sorted list is the least of what is left once one
    occurrence of a least entry is taken out. *)
Lemma second_of_sorted (m s0 s1 : Q) (rest others : list Q) :
  StronglySorted Qle (s0 :: s1 :: rest) ->
  Permutation (s0 :: s1 :: rest) (m :: others) ->
  (forall x, In x others -> (m <= x)%Q) ->
  (s0 == m)%Q
  /\ (exists y, In y others /\ (y == s1)%Q)
  /\ (forall x, In x others -> (s1 <= x)%Q).
Proof.
  intros Hs Hp Hm.
  inversion Hs as [|? ? Hs1 H0]; subst.
  inversion Hs1 as [|? ? _ H1]; subst.
  rewrite Forall_forall in H0, H1.
  assert (Hin : In m (s0 :: s1 :: rest))
    by (apply (Permutation_in _ (Permutation_sym Hp)); left; reflexivity).
  destruct Hin as [->|Hin].
  - apply Permutation_cons_inv in Hp.
    split; [reflexivity|]. split.
    + exists s1; split; [|reflexivity].
      apply (Permutation_in _ Hp); left; reflexivity.
    + intros x Hx. apply (Permutation_in _ (Permutation_sym Hp)) in Hx.
      destruct Hx as [<-|Hx]; [apply Qle_refl | auto].
  - assert (H01 : (s0 <= s1)%Q) by (apply H0; left; reflexivity).
    assert (H1m : (s1 <= m)%Q)
      by (destruct Hin as [<-|Hin]; [apply Qle_refl | auto]).
    destruct (in_split _ _ Hin) as (p1 & p2 & E).
    rewrite E in Hp. apply Permutation_sym in Hp.
    apply (Permutation_cons_app_inv (s0 :: p1)) in Hp.
    assert (Hs0 : In s0 others)
      by (apply (Permutation_in _ (Permutation_sym Hp)); left; reflexivity).
    assert (Hm0 : (m <= s0)%Q) by auto.
    split; [lra|]. split.
    + exists s0; split; [assumption | lra].
    + intros x Hx. specialize (Hm x Hx). lra.
Qed.

Lemma split_at (l : list Q) (b : nat) :
  b < length l -> l = firstn b l ++ Qnth l b :: skipn (S b) l.
Proof.
  revert b; induction l as [|x l IH]; intros b H; simpl in H; [lia|].
  destruct b as [|b]; simpl; [reflexivity|].
  f_equal. apply IH; lia.
Qed.

Lemma In_others (l : list Q) (b : nat) (x : Q) :
  In x (firstn b l ++ skipn (S b) l)
  <-> exists j, j < length l /\ j <> b /\ x = Qnth l j.
Proof.
  rewrite in_app_iff; split.
  - intros [H|H].
    + destruct (In_nth _ _ 0%Q H) as (j & Hj & E).
      rewrite length_firstn in Hj. rewrite nth_firstn in E.
      destruct (Nat.ltb_spec j b); [|lia].
      exists j; repeat split; [lia | lia | symmetry; exact E].
    + destruct (In_nth _ _ 0%Q H) as (j & Hj & E).
      rewrite length_skipn in Hj. rewrite nth_skipn in E.
      exists (S b + j); repeat split; [lia | lia | symmetry; exact E].
  - intros (j & Hj & Hne & ->).
    destruct (Nat.lt_ge_cases j b) as [Hlt|Hge].
    + left. replace (Qnth l j) with (nth j (firstn b l) 0%Q).
      * apply nth_In. rewrite length_firstn; lia.
      * rewrite nth_firstn. destruct (Nat.ltb_spec j b); [reflexivity|lia].
    + right. replace (Qnth l j) with (nth (j - S b) (skipn (S b) l) 0%Q).
      * apply nth_In. rewrite length_skipn; lia.
      * rewrite nth_skipn. unfold Qnth. f_equal; lia.
Qed.

Lemma sort_records (mse : list Q) :
  2 <= length mse ->
  exists f,
    (b <- Np.argmin mse ;;
     m0 <- Np.getitem (Np.sort mse) 0 ;;
     m1 <- Np.getitem (Np.sort mse) 1 ;;
     Ok {| best_offset := b; min_mse := m0; second_mse := m1 |}) = Ok f
    /\ nth_error (Np.sort mse) 0 = Some (min_mse f)
    /\ nth_error (Np.sort mse) 1 = Some (second_mse f)
    /\ records mse f.
Proof.
  intros Hlen.
  destruct (argmin_first_min mse) as (b & Hb & Hfm);
    [destruct mse; simpl in *; [lia | discriminate]|].
  rewrite Hb; simpl bind.
  pose proof (sort_length mse) as Hsl.
  pose proof (sort_sorted mse) as Hss.
  pose proof (sort_perm mse) as Hsp.
  destruct (Np.sort mse) as [|s0 [|s1 rest]]; simpl in Hsl; try lia.
  unfold Np.getitem; simpl.
  eexists; split; [reflexivity|]. simpl.
  split; [reflexivity|]. split; [reflexivity|].
  destruct Hfm as (Hlt & Hle & Hfirst).
  rewrite (split_at mse b Hlt) in Hsp at 1.
  rewrite <- Permutation_middle in Hsp.
  destruct (second_of_sorted _ _ _ _ _ Hss Hsp) as (E0 & (y & Hy & Ey) & Hall).
  { intros x Hx. apply In_others in Hx as (j & Hj & _ & ->). auto. }
  unfold records; simpl. repeat split; auto.
  - apply In_others in Hy as (j & Hj & Hne & ->).
    exists j; repeat split; auto. symmetry; exact Ey.
  - intros j Hj Hne. apply Hall, In_others. exists j; auto.
Qed.

Lemma match_chunk_from_profile
    (intervals_A intervals_B intervals_B2 : list Q) (chunk_size csA : nat)
    (mse : list Q) :
  mse_profile intervals_B intervals_B2
    (Np.slice intervals_A csA (csA + chunk_size)) chunk_size = Ok mse ->
  (length mse = 1 ->
   match_chunk intervals_A intervals_B intervals_B2 chunk_size csA
   = Raise IndexError)
  /\ (2 <= length mse ->
      exists f,
        match_chunk intervals_A intervals_B intervals_B2 chunk_size csA = Ok f
        /\ nth_error (Np.sort mse) 1 = Some (second_mse f)
        /\ records mse f).
Proof.
  intros Hmse; unfold match_chunk; rewrite Hmse; simpl bind. split.
  - intros Hlen. destruct mse as [|x [|y mse]]; simpl in Hlen; try lia.
    reflexivity.
  - intros Hlen. destruct (sort_records mse Hlen) as (f & Hf & _ & H1 & Hr).
    exists f; auto.
Qed.

(** C5, as the code has it.  Let B have at least [chunk_size] intervals, so
    that the profile of a chunk has one entry per window of B.  With at least
    two candidate offsets the loop body records the first position of the
    minimum as the best offset, the minimum itself, and as second error the
    second entry of the sorted profile, which is the least error found at a
    position other than the best offset.  With a single candidate offset (B
    has exactly [chunk_size] intervals) indexing the second entry of the
    sorted profile raises [IndexError]. *)
Theorem match_chunk_records
    (intervals_A intervals_B : list Q) (chunk_size csA : nat) :
  0 < chunk_size ->
  csA + chunk_size <= length intervals_A ->
  chunk_size <= length intervals_B ->
  exists mse,
    mse_profile intervals_B (Np.square intervals_B)
      (Np.slice intervals_A csA (csA + chunk_size)) chunk_size = Ok mse
    /\ length mse = length intervals_B - chunk_size + 1
    /\ (length intervals_B = chunk_size ->
        match_chunk intervals_A intervals_B (Np.square intervals_B)
          chunk_size csA = Raise IndexError)
    /\ (chunk_size < length intervals_B ->
        exists f,
          match_chunk intervals_A intervals_B (Np.square intervals_B)
            chunk_size csA = Ok f
          /\ nth_error (Np.sort mse) 1 = Some (second_mse f)
          /\ records mse f).
Proof.
  intros Hpos HA HB.
  pose proof (mse_profile_valid intervals_B
                (Np.slice intervals_A csA (csA + chunk_size)) chunk_size
                Hpos (slice_length _ _ _ HA) HB) as Hmse.
  eexists. split; [exact Hmse|].
  assert (Hlen : length (map (sweep_entry intervals_B
                                (Np.slice intervals_A csA (csA + chunk_size))
                                chunk_size)
                             (seq 0 (length intervals_B - chunk_size + 1)))
                 = length intervals_B - chunk_size + 1)
    by (rewrite length_map, length_seq; reflexivity).
  split; [exact Hlen|].
  destruct (match_chunk_from_profile intervals_A intervals_B
              (Np.square intervals_B) chunk_size csA _ Hmse) as (H1 & H2).
  split; intros H; [apply H1 | apply H2]; rewrite Hlen; lia.
Qed.

(** ** Chunk starts and best offsets *)

Lemma diff_length (l : list Q) : length (Np.diff l) = length l - 1.
Proof.
  induction l as [|x l IH]; [reflexivity|].
  destruct l as [|y l]; [reflexivity|].
  change (Np.diff (x :: y :: l)) with ((y - x)%Q :: Np.diff (y :: l)).
  simpl length in *. lia.
Qed.

Lemma arange_In (stop step : nat) (starts : list nat) (c : nat) :
  Np.arange stop step = Ok starts -> In c starts ->
  0 < step /\ c < stop /\ exists i, c = i * step.
Proof.
  unfold Np.arange. destruct step as [|step'] eqn:E; [discriminate|].
  rewrite <- E. intros H Hc. injection H as <-.
  apply in_map_iff in Hc as (i & <- & Hi). apply in_seq in Hi.
  split; [lia|]. split; [|eauto].
  pose proof (Nat.Div0.mul_div_le (stop + step - 1) step) as Hq.
  remember ((stop + step - 1) / step) as q eqn:Eq in *. clear Eq.
  assert (Hd : S i * step <= q * step)
    by (apply Nat.mul_le_mono_r; lia).
  rewrite (Nat.mul_comm step q) in Hq. lia.
Qed.

Lemma arange_nth (stop step : nat) (starts : list nat) (i c : nat) :
  Np.arange stop step = Ok starts -> nth_error starts i = Some c ->
  c = i * step.
Proof.
  unfold Np.arange. destruct step as [|step]; [discriminate|].
  intros H Hc; inversion H; subst; clear H.
  rewrite nth_error_map, nth_error_seq in Hc.
  destruct (i <? _); simpl in Hc; inversion Hc; reflexivity.
Qed.

Lemma match_chunks_Ok (A B : list Q) (chunk_size : nat)
    (starts : list nat) (fits : list chunk_fit) :
  match_chunks A B chunk_size = Ok (starts, fits) ->
  Np.arange (length A - chunk_size) chunk_size = Ok starts
  /\ mapM (match_chunk (Np.diff A) (Np.diff B) (Np.square (Np.diff B))
             chunk_size) starts = Ok fits.
Proof.
  unfold match_chunks. intros H.
  apply bind_Ok in H as (s & Hs & H).
  apply bind_Ok in H as (f & Hf & H).
  inversion H; subst; auto.
Qed.

Lemma chunk_in_A (A : list Q) (chunk_size : nat) (starts : list nat) (c : nat) :
  Np.arange (length A - chunk_size) chunk_size = Ok starts -> In c starts ->
  0 < chunk_size /\ c + chunk_size < length A
  /\ c + chunk_size <= length (Np.diff A).
Proof.
  intros H Hc. destruct (arange_In _ _ _ _ H Hc) as (Hpos & Hlt & _).
  rewrite diff_length. lia.
Qed.

Lemma match_chunk_valid_Ok (IA IB : list Q) (chunk_size csA : nat) (f : chunk_fit) :
  0 < chunk_size -> csA + chunk_size <= length IA -> chunk_size <= length IB ->
  match_chunk IA IB (Np.square IB) chunk_size csA = Ok f ->
  best_offset f + chunk_size <= length IB.
Proof.
  intros Hpos HA HB H. unfold match_chunk in H.
  rewrite mse_profile_valid in H by (auto using slice_length).
  simpl bind in H.
  apply bind_Ok in H as (b & Hb & H).
  apply bind_Ok in H as (m0 & _ & H). apply bind_Ok in H as (m1 & _ & H).
  inversion H; subst; clear H; simpl.
  destruct (argmin_first_min
              (map (sweep_entry IB (Np.slice IA csA (csA + chunk_size)) chunk_size)
                   (seq 0 (length IB - chunk_size + 1))))
    as (b' & Hb' & Hlt & _).
  { intros E. apply (f_equal (@length Q)) in E.
    rewrite length_map, length_seq in E. simpl in E. lia. }
  rewrite Hb in Hb'. inversion Hb'; subst b'.
  rewrite length_map, length_seq in Hlt. lia.
Qed.

Lemma set_slice_full {X : Type} (l v : list X) (s n : nat) :
  length v = n -> s + n <= length l ->
  Np.set_slice l s (s + n) v = Ok (firstn s l ++ v ++ skipn (s + n) l).
Proof.
  intros Hv H. unfold Np.set_slice.
  rewrite slice_length by assumption. rewrite Hv, Nat.eqb_refl. reflexivity.
Qed.

(** ** Slice assignment and the filling loop *)

Lemma nth_error_replace {X : Type} (l v : list X) (s n i : nat) :
  length v = n -> s + n <= length l ->
  nth_error (firstn s l ++ v ++ skipn (s + n) l) i
  = if (s <=? i) && (i <? s + n) then nth_error v (i - s)
    else nth_error l i.
Proof.
  intros <- H.
  assert (Hf : length (firstn s l) = s) by (rewrite length_firstn; lia).
  destruct (Nat.leb_spec s i) as [Hsi|Hsi]; simpl.
  - rewrite nth_error_app2 by lia. rewrite Hf.
    destruct (Nat.ltb_spec i (s + length v)) as [Hi|Hi].
    + apply nth_error_app1; lia.
    + rewrite nth_error_app2 by lia. rewrite nth_error_skipn.
      f_equal; lia.
  - rewrite nth_error_app1 by lia.
    rewrite nth_error_firstn.
    destruct (Nat.ltb_spec i s); [reflexivity | lia].
Qed.

Lemma replace_length {X : Type} (l v : list X) (s n : nat) :
  length v = n -> s + n <= length l ->
  length (firstn s l ++ v ++ skipn (s + n) l) = length l.
Proof.
  intros <- H. rewrite !length_app, length_firstn, length_skipn. lia.
Qed.

(** A successful assignment of [n > 0] values to [l[s:s+n]] either replaces
    [n] entries inside [l] or, for a single value and a slice that starts
    beyond the end, changes nothing. *)
Lemma set_slice_Ok {X : Type} (l v l' : list X) (s n : nat) :
  length v = n -> 0 < n ->
  Np.set_slice l s (s + n) v = Ok l' ->
  (s + n <= length l /\ l' = firstn s l ++ v ++ skipn (s + n) l)
  \/ (n = 1 /\ length l <= s /\ l' = l).
Proof.
  intros Hv Hn. unfold Np.set_slice. rewrite slice_length_le, Hv.
  remember (Nat.min n (length l - s)) as m eqn:Em.
  destruct (Nat.eqb_spec n m) as [E|E].
  - intros H; injection H as <-. left. split; [lia|].
    rewrite <- E. reflexivity.
  - destruct v as [|x [|y v]]; try discriminate.
    simpl in Hv. intros H; injection H as <-. right.
    assert (Hm : m = 0) by lia. subst m. rewrite Hm. simpl.
    rewrite Nat.add_0_r, firstn_skipn.
    repeat split; lia.
Qed.

Lemma set_slice_short {X : Type} (l v : list X) (s n : nat) :
  s + n <= length l -> length v <> n -> length v <> 1 ->
  Np.set_slice l s (s + n) v = Raise ValueError.
Proof.
  intros H Hv H1. unfold Np.set_slice. rewrite slice_length by assumption.
  destruct (Nat.eqb_spec (length v) n); [contradiction|].
  destruct v as [|x [|y v]]; simpl in *; congruence.
Qed.

Lemma fill_step (A B : list Q) (cs csA csB : nat)
    (cor_A cor_B cor_A' cor_B' : list (option Q)) :
  0 < cs -> csA + cs <= length A ->
  length cor_A = length B -> length cor_B = length A ->
  Np.set_slice cor_A csB (csB + cs) (map Some (Np.slice A csA (csA + cs)))
    = Ok cor_A' ->
  Np.set_slice cor_B csA (csA + cs) (map Some (Np.slice B csB (csB + cs)))
    = Ok cor_B' ->
  csB + cs <= length B
  /\ cor_A' = firstn csB cor_A ++ map Some (Np.slice A csA (csA + cs))
                ++ skipn (csB + cs) cor_A
  /\ cor_B' = firstn csA cor_B ++ map Some (Np.slice B csB (csB + cs))
                ++ skipn (csA + cs) cor_B.
Proof.
  intros Hpos HA LA LB H1 H2.
  assert (LvA : length (map Some (Np.slice A csA (csA + cs))) = cs)
    by (rewrite length_map, slice_length; lia).
  apply set_slice_Ok in H1; auto.
  destruct H1 as [(Hin & ->)|(-> & Hout & ->)].
  - assert (LvB : length (map Some (Np.slice B csB (csB + 1 * cs))) = cs)
      by (rewrite length_map, Nat.mul_1_l, slice_length; lia).
    rewrite Nat.mul_1_l in LvB.
    apply set_slice_Ok in H2; auto.
    destruct H2 as [(_ & ->)|(-> & Hout & _)]; [split; [lia|auto]|lia].
  - rewrite set_slice_short in H2; [discriminate | lia | |];
      rewrite length_map, slice_length_le; lia.
Qed.

Lemma fill_spec (A B : list Q) (cs : nat) (chunks : list (nat * nat * bool)) :
  (forall csA csB v, In (csA, csB, v) chunks -> 0 < cs /\ csA + cs <= length A) ->
  forall cor_A cor_B cor_A' cor_B',
    length cor_A = length B -> length cor_B = length A ->
    fill A B cs chunks cor_A cor_B = Ok (cor_A', cor_B') ->
    length cor_A' = length B /\ length cor_B' = length A
    /\ (forall csA csB, In (csA, csB, true) chunks -> csB + cs <= length B)
    /\ (forall i, written_A A cs chunks i (nth_error cor_A' i)
                  \/ (~ covered_A cs chunks i
                      /\ nth_error cor_A' i = nth_error cor_A i))
    /\ (forall i, written_B B cs chunks i (nth_error cor_B' i)
                  \/ (~ covered_B cs chunks i
                      /\ nth_error cor_B' i = nth_error cor_B i)).
Proof.
  induction chunks as [|[[csA csB] valid] chunks IH];
    intros Hch cor_A cor_B cor_A' cor_B' LA LB H; simpl in H.
  - injection H as <- <-. repeat split; auto.
    + intros ? ? [].
    + intros i; right; split; [intros (? & ? & [] & _) | reflexivity].
    + intros i; right; split; [intros (? & ? & [] & _) | reflexivity].
  - assert (Hch' : forall csA csB v, In (csA, csB, v) chunks ->
                                     0 < cs /\ csA + cs <= length A)
      by (intros; eapply Hch; right; eauto).
    destruct valid.
    + destruct (Hch csA csB true (or_introl eq_refl)) as (Hpos & HA).
      apply bind_Ok in H as (cor_A1 & H1 & H).
      apply bind_Ok in H as (cor_B1 & H2 & H).
      destruct (fill_step _ _ _ _ _ _ _ _ _ Hpos HA LA LB H1 H2)
        as (HB & E1 & E2).
      assert (LvA : length (map Some (Np.slice A csA (csA + cs))) = cs)
        by (rewrite length_map, slice_length; lia).
      assert (LvB : length (map Some (Np.slice B csB (csB + cs))) = cs)
        by (rewrite length_map, slice_length; lia).
      assert (LA1 : length cor_A1 = length B).
      { rewrite E1, replace_length; [assumption | assumption | lia]. }
      assert (LB1 : length cor_B1 = length A).
      { rewrite E2, replace_length; [assumption | assumption | lia]. }
      destruct (IH Hch' _ _ _ _ LA1 LB1 H) as (L1 & L2 & Hin & HcA & HcB).
      split; [assumption|]. split; [assumption|]. split; [|split].
      * intros a b [E|Hab]; [inversion E; subst; assumption | eauto].
      * intros i. destruct (HcA i) as [(a & b & Hab & Hi & E)|(Hn & E)].
        { left. exists a, b. split; [right; assumption | auto]. }
        rewrite E, E1. rewrite (nth_error_replace _ _ _ cs) by (auto; lia).
        destruct (Nat.leb_spec csB i) as [Hl|Hl];
          [destruct (Nat.ltb_spec i (csB + cs)) as [Hu|Hu]|]; simpl.
        -- left. exists csA, csB. split; [left; reflexivity|].
           split; [lia|]. rewrite nth_error_map, slice_nth_error by lia.
           reflexivity.
        -- right. split; [|reflexivity].
           intros (a & b & [Eab|Hab] & Hi);
             [inversion Eab; subst; lia | apply Hn; exists a, b; auto].
        -- right. split; [|reflexivity].
           intros (a & b & [Eab|Hab] & Hi);
             [inversion Eab; subst; lia | apply Hn; exists a, b; auto].
      * intros i. destruct (HcB i) as [(a & b & Hab & Hi & E)|(Hn & E)].
        { left. exists a, b. split; [right; assumption | auto]. }
        rewrite E, E2. rewrite (nth_error_replace _ _ _ cs) by (auto; lia).
        destruct (Nat.leb_spec csA i) as [Hl|Hl];
          [destruct (Nat.ltb_spec i (csA + cs)) as [Hu|Hu]|]; simpl.
        -- left. exists csA, csB. split; [left; reflexivity|].
           split; [lia|]. rewrite nth_error_map, slice_nth_error by lia.
           reflexivity.
        -- right. split; [|reflexivity].
           intros (a & b & [Eab|Hab] & Hi);
             [inversion Eab; subst; lia | apply Hn; exists a, b; auto].
        -- right. split; [|reflexivity].
           intros (a & b & [Eab|Hab] & Hi);
             [inversion Eab; subst; lia | apply Hn; exists a, b; auto].
    + destruct (IH Hch' _ _ _ _ LA LB H) as (L1 & L2 & Hin & HcA & HcB).
      split; [assumption|]. split; [assumption|]. split; [|split].
      * intros a b [E|Hab]; [discriminate | eauto].
      * intros i. destruct (HcA i) as [(a & b & Hab & Hi & E)|(Hn & E)].
        -- left. exists a, b. split; [right; assumption | auto].
        -- right. split; [|assumption].
           intros (a & b & [Eab|Hab] & Hi);
             [discriminate | apply Hn; exists a, b; auto].
      * intros i. destruct (HcB i) as [(a & b & Hab & Hi & E)|(Hn & E)].
        -- left. exists a, b. split; [right; assumption | auto].
        -- right. split; [|assumption].
           intros (a & b & [Eab|Hab] & Hi);
             [discriminate | apply Hn; exists a, b; auto].
Qed.

(** ** The constructed aligner *)

Section Constructed.

Variable model : Type.
Variable gmm_fit : list Q -> model.
Variable gmm_lower : model -> Q -> bool.

Lemma classify_Ok (A B : list Q) (cs : nat) (chunks : list (nat * nat * bool)) :
  classify gmm_fit gmm_lower A B cs = Ok chunks ->
  exists starts fits,
    match_chunks A B cs = Ok (starts, fits)
    /\ 2 <= length (log_mse fits)
    /\ chunks = combine (combine starts (map best_offset fits))
                  (map (gmm_lower (gmm_fit (log_mse fits))) (log_mse fits)).
Proof.
  unfold classify. intros H.
  apply bind_Ok in H as ([starts fits] & Hm & H).
  apply bind_Ok in H as (valid & Hv & H). simpl in *.
  exists starts, fits. split; [assumption|].
  unfold valid_matches in Hv.
  destruct (Nat.ltb_spec (length (log_mse fits)) 2); [discriminate|].
  injection Hv as <-. injection H as <-. auto.
Qed.

Lemma classify_chunk_in_A (A B : list Q) (cs : nat)
    (chunks : list (nat * nat * bool)) :
  classify gmm_fit gmm_lower A B cs = Ok chunks ->
  forall csA csB v, In (csA, csB, v) chunks ->
  0 < cs /\ csA + cs < length A.
Proof.
  intros H csA csB v Hin.
  apply classify_Ok in H as (starts & fits & Hm & _ & ->).
  apply match_chunks_Ok in Hm as (Hs & _).
  apply in_combine_l, in_combine_l in Hin.
  destruct (chunk_in_A _ _ _ _ Hs Hin) as (? & ? & _). auto.
Qed.

Lemma init_Ok (A B : list Q) (cs : nat) (self : Rsync_aligner) :
  init gmm_fit gmm_lower A B cs = Ok self ->
  exists chunks,
    classify gmm_fit gmm_lower A B cs = Ok chunks
    /\ fill A B cs chunks (Np.full_nan (length B)) (Np.full_nan (length A))
       = Ok (cor_times_A self, cor_times_B self)
    /\ pulse_times_A self = A /\ pulse_times_B self = B.
Proof.
  unfold init. intros H.
  apply bind_Ok in H as (chunks & Hc & H).
  apply bind_Ok in H as ([cA cB] & Hf & H).
  injection H as <-. simpl. eauto.
Qed.

Lemma full_nan_nth (n i : nat) :
  i < n -> nth_error (Np.full_nan n) i = Some None.
Proof.
  intros H. unfold Np.full_nan. rewrite nth_error_repeat; auto.
Qed.

(** C8.  In a constructed aligner, with the chunks as the loop of lines
    50-53 sees them: an entry of [cor_times_B] holds a pulse time of B when
    its index lies in the run of [chunk_size] indices that starts at the A
    start of some chunk flagged as a match, and is [nan] otherwise; an entry
    of [cor_times_A] holds a pulse time of A when its index lies in the run
    of [chunk_size] indices that starts at the best offset in B of such a
    chunk, and is [nan] otherwise; all these runs lie inside the arrays. *)
Theorem correspondence_invariant (A B : list Q) (cs : nat)
    (self : Rsync_aligner) :
  init gmm_fit gmm_lower A B cs = Ok self ->
  exists chunks,
    classify gmm_fit gmm_lower A B cs = Ok chunks
    /\ length (cor_times_A self) = length B
    /\ length (cor_times_B self) = length A
    /\ (forall csA csB, In (csA, csB, true) chunks ->
          csA + cs <= length A /\ csB + cs <= length B)
    /\ (forall i, i < length A ->
          (covered_B cs chunks i ->
           exists b, nth_error (cor_times_B self) i = Some (Some b) /\ In b B)
          /\ (~ covered_B cs chunks i ->
              nth_error (cor_times_B self) i = Some None))
    /\ (forall i, i < length B ->
          (covered_A cs chunks i ->
           exists a, nth_error (cor_times_A self) i = Some (Some a) /\ In a A)
          /\ (~ covered_A cs chunks i ->
              nth_error (cor_times_A self) i = Some None)).
Proof.
  intros H. apply init_Ok in H as (chunks & Hc & Hf & _ & _).
  exists chunks. split; [assumption|].
  pose proof (classify_chunk_in_A _ _ _ _ Hc) as Hch.
  apply fill_spec in Hf;
    [| intros a b v Hin; destruct (Hch a b v Hin); split; [assumption | lia]
     | apply repeat_length | apply repeat_length].
  destruct Hf as (LA & LB & HinB & HwA & HwB).
  split; [assumption|]. split; [assumption|]. split; [|split].
  - intros a b Hin. destruct (Hch a b true Hin). split; [lia | eauto].
  - intros i Hi. destruct (HwB i) as [(a & b & Hin & Hr & E)|(Hn & E)].
    + split.
      * intros _. specialize (HinB a b Hin).
        destruct (nth_error B (b + (i - a))) as [y|] eqn:Ey;
          [| apply nth_error_None in Ey; lia].
        exists y. split; [exact E | eapply nth_error_In; eauto].
      * intros Hn. exfalso. apply Hn. exists a, b. auto.
    + split; [contradiction|]. intros _.
      rewrite E. apply full_nan_nth; assumption.
  - intros i Hi. destruct (HwA i) as [(a & b & Hin & Hr & E)|(Hn & E)].
    + split.
      * intros _. destruct (Hch a b true Hin) as (_ & Ha).
        destruct (nth_error A (a + (i - b))) as [y|] eqn:Ey;
          [| apply nth_error_None in Ey; lia].
        exists y. split; [exact E | eapply nth_error_In; eauto].
      * intros Hn. exfalso. apply Hn. exists a, b. auto.
    + split; [contradiction|]. intros _.
      rewrite E. apply full_nan_nth; assumption.
Qed.

End Constructed.

(** ** [np.interp] *)

Lemma Qeq_bool_true (x y : Q) : Qeq_bool x y = true -> (x == y)%Q.
Proof. apply Qeq_bool_iff. Qed.

Lemma In_combine_nth_error {X Y : Type} (l : list X) (l' : list Y) (a : X) (b : Y) :
  In (a, b) (combine l l') ->
  exists i, nth_error l i = Some a /\ nth_error l' i = Some b.
Proof.
  revert l'; induction l as [|x l IH]; intros [|y l'] H; simpl in H;
    try contradiction.
  destruct H as [E|H].
  - injection E as -> ->. exists 0; auto.
  - destruct (IH _ H) as (i & ? & ?). exists (S i); auto.
Qed.

(** Before every defined sample point the scan finds only [nan]. *)
Lemma interp_from_before (x : Q) (rest : list (Q * option Q)) :
  forall x0 y0,
    (forall xi yi, In (xi, Some yi) ((x0, y0) :: rest) -> (x < xi)%Q) ->
    (x0 <= x)%Q ->
    Np.interp_from x x0 y0 rest = None.
Proof.
  induction rest as [|[x1 y1] rest IH]; intros x0 y0 Hall H0; simpl.
  - destruct y0 as [a|]; [|destruct (Qeq_bool x x0); reflexivity].
    specialize (Hall x0 a (or_introl eq_refl)). lra.
  - assert (Hy0 : y0 = None).
    { destruct y0 as [a|]; [|reflexivity].
      specialize (Hall x0 a (or_introl eq_refl)). lra. }
    subst y0. destruct (Np.Qltb x x1) eqn:E.
    + destruct (Qeq_bool x x0); reflexivity.
    + apply Qltb_false in E. apply IH; [|assumption].
      intros xi yi Hin. apply (Hall xi yi). right; assumption.
Qed.

(** After every defined sample point too. *)
Lemma interp_from_after (x : Q) (rest : list (Q * option Q)) :
  forall x0 y0,
    (forall xi yi, In (xi, Some yi) ((x0, y0) :: rest) -> (xi < x)%Q) ->
    Np.interp_from x x0 y0 rest = None.
Proof.
  induction rest as [|[x1 y1] rest IH]; intros x0 y0 Hall; simpl.
  - destruct (Qeq_bool x x0) eqn:E; [|reflexivity].
    apply Qeq_bool_true in E.
    destruct y0 as [a|]; [|reflexivity].
    specialize (Hall x0 a (or_introl eq_refl)). lra.
  - destruct (Np.Qltb x x1) eqn:E.
    + apply Qltb_true in E.
      assert (Hy1 : y1 = None).
      { destruct y1 as [b|]; [|reflexivity].
        specialize (Hall x1 b (or_intror (or_introl eq_refl))). lra. }
      subst y1.
      destruct (Qeq_bool x x0) eqn:E0.
      * apply Qeq_bool_true in E0.
        destruct y0 as [a|]; [|reflexivity].
        specialize (Hall x0 a (or_introl eq_refl)). lra.
      * destruct y0; reflexivity.
    + apply IH. intros xi yi Hin. apply (Hall xi yi). right; assumption.
Qed.

Lemma interp_outside (t : Q) (xp : list Q) (fp : list (option Q)) :
  xp <> [] -> length xp = length fp ->
  (forall i x y, nth_error xp i = Some x -> nth_error fp i = Some (Some y) ->
                 (t < x)%Q)
  \/ (forall i x y, nth_error xp i = Some x -> nth_error fp i = Some (Some y) ->
                    (x < t)%Q) ->
  Np.interp t xp fp = Ok None.
Proof.
  intros Hne Hlen Hout. unfold Np.interp.
  rewrite Hlen, Nat.eqb_refl. simpl negb. cbv iota.
  destruct xp as [|x0 xp]; [congruence|].
  destruct fp as [|y0 fp]; [discriminate|]. simpl combine. cbv iota.
  f_equal. destruct (Np.Qltb t x0) eqn:E; [reflexivity|].
  apply Qltb_false in E.
  destruct Hout as [Hb|Ha].
  - apply interp_from_before; [|assumption].
    intros xi yi Hin.
    apply (In_combine_nth_error (x0 :: xp) (y0 :: fp)) in Hin
      as (i & Hx & Hy). eauto.
  - apply interp_from_after.
    intros xi yi Hin.
    apply (In_combine_nth_error (x0 :: xp) (y0 :: fp)) in Hin
      as (i & Hx & Hy). eauto.
Qed.

Lemma match_chunk_Ok_B (IA IB : list Q) (cs csA : nat) (f : chunk_fit) :
  match_chunk IA IB (Np.square IB) cs csA = Ok f -> IB <> [].
Proof.
  intros H ->. discriminate H.
Qed.

Section Shape.

Variable model : Type.
Variable gmm_fit : list Q -> model.
Variable gmm_lower : model -> Q -> bool.

(** What the filling loop leaves in a constructed aligner. *)
Lemma init_filled (A B : list Q) (cs : nat) (self : Rsync_aligner) :
  init gmm_fit gmm_lower A B cs = Ok self ->
  exists chunks,
    classify gmm_fit gmm_lower A B cs = Ok chunks
    /\ length (cor_times_A self) = length B
    /\ length (cor_times_B self) = length A
    /\ (forall csA csB v, In (csA, csB, v) chunks ->
          0 < cs /\ csA + cs < length A)
    /\ (forall csA csB, In (csA, csB, true) chunks -> csB + cs <= length B)
    /\ (forall i, written_A A cs chunks i (nth_error (cor_times_A self) i)
                  \/ (~ covered_A cs chunks i
                      /\ nth_error (cor_times_A self) i
                         = nth_error (Np.full_nan (length B)) i))
    /\ (forall i, written_B B cs chunks i (nth_error (cor_times_B self) i)
                  \/ (~ covered_B cs chunks i
                      /\ nth_error (cor_times_B self) i
                         = nth_error (Np.full_nan (length A)) i)).
Proof.
  intros H. apply init_Ok in H as (chunks & Hc & Hf & _ & _).
  exists chunks. split; [assumption|].
  pose proof (classify_chunk_in_A _ gmm_fit gmm_lower _ _ _ _ Hc) as Hch.
  apply fill_spec in Hf;
    [| intros a b v Hin; destruct (Hch a b v Hin); split; [assumption | lia]
     | apply repeat_length | apply repeat_length].
  destruct Hf as (LA & LB & HinB & HwA & HwB).
  repeat (split; [assumption|]). assumption.
Qed.

Lemma init_shape (A B : list Q) (cs : nat) (self : Rsync_aligner) :
  init gmm_fit gmm_lower A B cs = Ok self ->
  pulse_times_A self = A /\ pulse_times_B self = B
  /\ length (cor_times_A self) = length B
  /\ length (cor_times_B self) = length A
  /\ A <> [] /\ B <> [].
Proof.
  intros H.
  destruct (init_filled _ _ _ _ H) as (chunks & Hc & LA & LB & _).
  apply init_Ok in H as (_ & _ & _ & EA & EB).
  repeat (split; [assumption|]).
  apply classify_Ok in Hc as (starts & fits & Hm & Hpool & _).
  apply match_chunks_Ok in Hm as (Hs & Hfits).
  destruct fits as [|f fits]; [simpl in Hpool; lia|].
  pose proof (mapM_Ok_length _ _ _ Hfits) as Hl.
  destruct starts as [|c starts]; [discriminate|].
  destruct (chunk_in_A _ _ _ _ Hs (or_introl eq_refl)) as (_ & HcA & _).
  split; [intros ->; simpl in HcA; lia|].
  simpl in Hfits. apply bind_Ok in Hfits as (f' & Hf' & _).
  apply match_chunk_Ok_B in Hf'.
  intros ->. apply Hf'. reflexivity.
Qed.

(** C7.  In a constructed aligner over increasing pulse times, a query
    strictly before every matched point (every pulse time whose
    correspondence is not [nan]) or strictly after every matched point gets
    [nan] from [A_to_B], and likewise from [B_to_A]; the answer is a normal
    return value, not an exception. *)
Theorem out_of_range_is_nan (A B : list Q) (cs : nat) (self : Rsync_aligner)
    (t : Q) :
  init gmm_fit gmm_lower A B cs = Ok self ->
  StronglySorted Qlt A -> StronglySorted Qlt B ->
  ((forall i x y, nth_error A i = Some x ->
                  nth_error (cor_times_B self) i = Some (Some y) -> (t < x)%Q)
   \/ (forall i x y, nth_error A i = Some x ->
                     nth_error (cor_times_B self) i = Some (Some y) ->
                     (x < t)%Q) ->
   A_to_B self t = Ok None)
  /\ ((forall i x y, nth_error B i = Some x ->
                     nth_error (cor_times_A self) i = Some (Some y) ->
                     (t < x)%Q)
      \/ (forall i x y, nth_error B i = Some x ->
                        nth_error (cor_times_A self) i = Some (Some y) ->
                        (x < t)%Q) ->
      B_to_A self t = Ok None).
Proof.
  intros H _ _.
  destruct (init_shape _ _ _ _ H) as (EA & EB & LA & LB & NA & NB).
  unfold A_to_B, B_to_A. rewrite EA, EB.
  split; intros Hout; apply interp_outside; auto.
Qed.

End Shape.

Lemma interp_from_at (t : Q) (j : nat) :
  forall (xs : list Q) (ys : list (option Q)) a0 b0 x0 y0 x1 y1,
    StronglySorted Qlt (a0 :: xs) ->
    nth_error (a0 :: xs) j = Some x0 -> nth_error (b0 :: ys) j = Some y0 ->
    nth_error (a0 :: xs) (S j) = Some x1 -> nth_error (b0 :: ys) (S j) = Some y1 ->
    (x0 <= t)%Q -> (t < x1)%Q ->
    Np.interp_from t a0 b0 (combine xs ys)
    = if Qeq_bool t x0 then y0 else Np.lerp x0 y0 x1 y1 t.
Proof.
  induction j as [|j IH]; intros xs ys a0 b0 x0 y0 x1 y1 Hs Hx0 Hy0 Hx1 Hy1 H0 H1.
  - simpl in Hx0, Hy0. injection Hx0 as ->. injection Hy0 as ->.
    destruct xs as [|a1 xs]; [discriminate|].
    destruct ys as [|b1 ys]; [discriminate|].
    simpl in Hx1, Hy1. injection Hx1 as ->. injection Hy1 as ->.
    simpl. apply Qltb_true in H1. rewrite H1. reflexivity.
  - destruct xs as [|a1 xs]; [destruct j; discriminate|].
    destruct ys as [|b1 ys]; [destruct j; discriminate|].
    inversion Hs as [|? ? Hs' Hall]; subst.
    assert (Ha1 : (a1 <= x0)%Q).
    { inversion Hs' as [|? ? _ Hall']; subst.
      destruct j as [|j]; simpl in Hx0.
      - injection Hx0 as ->. apply Qle_refl.
      - apply Qlt_le_weak. rewrite Forall_forall in Hall'.
        apply Hall'. eapply nth_error_In; eauto. }
    simpl combine. simpl Np.interp_from.
    assert (E : Np.Qltb t a1 = false) by (apply Qltb_false; lra).
    rewrite E. apply IH; auto.
Qed.

Lemma interp_from_last (t : Q) :
  forall (xs : list Q) (ys : list (option Q)) a0 b0 x y,
    StronglySorted Qlt (a0 :: xs) -> length xs = length ys ->
    nth_error (a0 :: xs) (length xs) = Some x ->
    nth_error (b0 :: ys) (length xs) = Some y ->
    (t == x)%Q ->
    Np.interp_from t a0 b0 (combine xs ys) = y.
Proof.
  induction xs as [|a1 xs IH]; intros ys a0 b0 x y Hs Hl Hx Hy Ht.
  - destruct ys; [|discriminate]. simpl in *.
    injection Hx as ->. injection Hy as ->.
    apply Qeq_bool_iff in Ht. rewrite Ht. reflexivity.
  - destruct ys as [|b1 ys]; [discriminate|].
    inversion Hs as [|? ? Hs' Hall]; subst.
    assert (Ha1 : (a1 <= x)%Q).
    { inversion Hs' as [|? ? _ Hall']; subst. simpl in Hx.
      destruct xs as [|a2 xs]; simpl in Hx.
      - injection Hx as ->. apply Qle_refl.
      - apply Qlt_le_weak. rewrite Forall_forall in Hall'.
        apply Hall'. eapply nth_error_In; eauto. }
    simpl combine. simpl Np.interp_from.
    assert (E : Np.Qltb t a1 = false) by (apply Qltb_false; lra).
    rewrite E. apply (IH ys a1 b1 x y); auto.
Qed.

(** [np.interp] on increasing sample points, nan entries included. *)
Lemma interp_spec (t : Q) (xp : list Q) (fp : list (option Q)) :
  StronglySorted Qlt xp -> length xp = length fp ->
  (forall j x0 y0 x1 y1,
      nth_error xp j = Some x0 -> nth_error fp j = Some y0 ->
      nth_error xp (S j) = Some x1 -> nth_error fp (S j) = Some y1 ->
      (x0 <= t)%Q -> (t < x1)%Q ->
      Np.interp t xp fp
      = Ok (if Qeq_bool t x0 then y0 else Np.lerp x0 y0 x1 y1 t))
  /\ (forall x y,
        nth_error xp (length xp - 1) = Some x ->
        nth_error fp (length xp - 1) = Some y ->
        (t == x)%Q -> Np.interp t xp fp = Ok y).
Proof.
  intros Hs Hl. split.
  - intros j x0 y0 x1 y1 Hx0 Hy0 Hx1 Hy1 H0 H1.
    unfold Np.interp. rewrite Hl, Nat.eqb_refl. simpl negb. cbv iota.
    destruct xp as [|a0 xs]; [destruct j; discriminate|].
    destruct fp as [|b0 ys]; [discriminate|]. simpl combine. cbv iota.
    assert (Ha0 : (a0 <= x0)%Q).
    { inversion Hs as [|? ? _ Hall]; subst.
      destruct j as [|j]; simpl in Hx0.
      - injection Hx0 as ->. apply Qle_refl.
      - apply Qlt_le_weak. rewrite Forall_forall in Hall.
        apply Hall. eapply nth_error_In; eauto. }
    assert (E : Np.Qltb t a0 = false) by (apply Qltb_false; lra).
    rewrite E. f_equal. eapply interp_from_at; eauto.
  - intros x y Hx Hy Ht.
    unfold Np.interp. rewrite Hl, Nat.eqb_refl. simpl negb. cbv iota.
    destruct xp as [|a0 xs]; [discriminate|].
    destruct fp as [|b0 ys]; [discriminate|]. simpl combine. cbv iota.
    replace (length (a0 :: xs) - 1) with (length xs) in Hx, Hy
      by (simpl; lia).
    assert (Ha0 : (a0 <= x)%Q).
    { inversion Hs as [|? ? _ Hall]; subst.
      destruct xs as [|a1 xs]; simpl in Hx.
      - injection Hx as ->. apply Qle_refl.
      - apply Qlt_le_weak. rewrite Forall_forall in Hall.
        apply Hall. eapply nth_error_In; eauto. }
    assert (E : Np.Qltb t a0 = false) by (apply Qltb_false; lra).
    rewrite E. f_equal. simpl in Hl.
    eapply interp_from_last; eauto.
Qed.

Section Converters.

Variable model : Type.
Variable gmm_fit : list Q -> model.
Variable gmm_lower : model -> Q -> bool.

(** C3, as the code has it.  In a constructed aligner over increasing pulse
    times, [A_to_B(t)] is [np.interp] against all the sample points
    [(pulse_times_A[j], cor_times_B[j])], the [nan] ones included: for
    [pulse_times_A[j] <= t < pulse_times_A[j+1]] it is [cor_times_B[j]] when
    [t] is [pulse_times_A[j]], and otherwise the linear interpolant between
    the two adjacent sample points when both correspondences are defined and
    [nan] when either is not; at the last pulse time it is the last entry of
    [cor_times_B].  [B_to_A] does the same over
    [(pulse_times_B[j], cor_times_A[j])]. *)
Theorem converters_use_adjacent_points (A B : list Q) (cs : nat)
    (self : Rsync_aligner) (t : Q) :
  init gmm_fit gmm_lower A B cs = Ok self ->
  StronglySorted Qlt A -> StronglySorted Qlt B ->
  (forall j x0 y0 x1 y1,
      nth_error A j = Some x0 -> nth_error (cor_times_B self) j = Some y0 ->
      nth_error A (S j) = Some x1 ->
      nth_error (cor_times_B self) (S j) = Some y1 ->
      (x0 <= t)%Q -> (t < x1)%Q ->
      A_to_B self t
      = Ok (if Qeq_bool t x0 then y0
            else match y0, y1 with
                 | Some a, Some b =>
                     Some ((b - a) / (x1 - x0) * (t - x0) + a)%Q
                 | _, _ => None
                 end))
  /\ (forall x y,
        nth_error A (length A - 1) = Some x ->
        nth_error (cor_times_B self) (length A - 1) = Some y ->
        (t == x)%Q -> A_to_B self t = Ok y)
  /\ (forall j x0 y0 x1 y1,
        nth_error B j = Some x0 -> nth_error (cor_times_A self) j = Some y0 ->
        nth_error B (S j) = Some x1 ->
        nth_error (cor_times_A self) (S j) = Some y1 ->
        (x0 <= t)%Q -> (t < x1)%Q ->
        B_to_A self t
        = Ok (if Qeq_bool t x0 then y0
              else match y0, y1 with
                   | Some a, Some b =>
                       Some ((b - a) / (x1 - x0) * (t - x0) + a)%Q
                   | _, _ => None
                   end))
  /\ (forall x y,
        nth_error B (length B - 1) = Some x ->
        nth_error (cor_times_A self) (length B - 1) = Some y ->
        (t == x)%Q -> B_to_A self t = Ok y).
Proof.
  intros H HsA HsB.
  destruct (init_shape _ _ _ _ _ _ _ H) as (EA & EB & LA & LB & _ & _).
  unfold A_to_B, B_to_A. rewrite EA, EB.
  destruct (interp_spec t A (cor_times_B self) HsA (eq_sym LB)) as (H1 & H2).
  destruct (interp_spec t B (cor_times_A self) HsB (eq_sym LA)) as (H3 & H4).
  repeat split.
  - intros j x0 y0 x1 y1 ? ? ? ? ? ?. apply (H1 j x0 y0 x1 y1); assumption.
  - assumption.
  - intros j x0 y0 x1 y1 ? ? ? ? ? ?. apply (H3 j x0 y0 x1 y1); assumption.
  - assumption.
Qed.

End Converters.

(** ** Concrete runs *)



Ltac sorted_Q :=
  repeat (constructor; [| repeat (constructor; [reflexivity|]); constructor]);
  try constructor.

(** C3 fails as stated.  A has seven pulses, B the same pulses with a
    stretch in the middle that matches nothing; the first and the last chunk
    are flagged as matches and the middle one is not.  Between the two matched
    stretches both converters return [nan], while the interpolation over the
    defined sample points alone gives a number. *)
Lemma converters_skip_no_nan_counterexample :
  let A := Zs [0; 1; 3; 6; 10; 15; 21]%Z in
  let B := Zs [0; 1; 4; 13; 22; 27; 34]%Z in
  exists self,
    init (cut_fit 1) cut_lower A B 2 = Ok self
    /\ StronglySorted Qlt A /\ StronglySorted Qlt B
    /\ cor_times_B self
       = [Some 0; Some 1; None; None; Some (22#1); Some (27#1); None]%Q
    /\ cor_times_A self
       = [Some 0; Some 1; None; None; Some (10#1); Some (15#1); None]%Q
    /\ A_to_B self (5#1) = Ok None
    /\ (exists v, interp_defined (5#1) (pulse_times_A self) (cor_times_B self)
                  = Ok (Some v) /\ (v == 31#3)%Q)
    /\ B_to_A self (10#1) = Ok None
    /\ (exists v, interp_defined (10#1) (pulse_times_B self) (cor_times_A self)
                  = Ok (Some v) /\ (v == 34#7)%Q).
Proof.
  cbv zeta. eexists. split; [vm_compute; reflexivity|].
  split; [sorted_Q|]. split; [sorted_Q|].
  cbn [cor_times_A cor_times_B pulse_times_A pulse_times_B].
  split; [reflexivity|]. split; [reflexivity|].
  split; [vm_compute; reflexivity|].
  split; [eexists; split; [vm_compute; reflexivity | reflexivity]|].
  split; [vm_compute; reflexivity|].
  eexists; split; [vm_compute; reflexivity | reflexivity].
Qed.

(** ** Too little data *)

Lemma mapM_total {X Y : Type} (f : X -> result Y) (l : list X) :
  (forall a, In a l -> exists b, f a = Ok b) -> exists bs, mapM f l = Ok bs.
Proof.
  induction l as [|a l IH]; simpl; intros H; [eauto|].
  destruct (H a (or_introl eq_refl)) as (b & ->).
  destruct IH as (bs & ->); [intros; apply H; auto|].
  simpl; eauto.
Qed.

Lemma fill_total (A B : list Q) (cs : nat) (chunks : list (nat * nat * bool)) :
  (forall a b, In (a, b, true) chunks ->
     a + cs <= length A /\ b + cs <= length B) ->
  forall cor_A cor_B,
    length cor_A = length B -> length cor_B = length A ->
    exists r, fill A B cs chunks cor_A cor_B = Ok r.
Proof.
  induction chunks as [|[[a b] v] chunks IH]; intros Hch cor_A cor_B LA LB.
  - simpl; eauto.
  - assert (Hch' : forall a b, In (a, b, true) chunks ->
                     a + cs <= length A /\ b + cs <= length B)
      by (intros; apply Hch; right; assumption).
    simpl. destruct v; [|apply IH; assumption].
    destruct (Hch a b (or_introl eq_refl)) as (HA & HB).
    assert (LvA : length (map Some (Np.slice A a (a + cs))) = cs)
      by (rewrite length_map, slice_length; lia).
    assert (LvB : length (map Some (Np.slice B b (b + cs))) = cs)
      by (rewrite length_map, slice_length; lia).
    rewrite (set_slice_full cor_A _ b cs LvA) by lia. simpl bind.
    rewrite (set_slice_full cor_B _ a cs LvB) by lia. simpl bind.
    apply IH; [assumption | |]; rewrite replace_length; auto; lia.
Qed.







Section Insufficient.

Variable model : Type.
Variable gmm_fit : list Q -> model.
Variable gmm_lower : model -> Q -> bool.


End Insufficient.


(** C5 fails as stated.  With [chunk_size = 2] and A = B of three pulses, B
    has exactly [chunk_size] intervals, the profile of the only chunk has a
    single candidate offset, and construction raises [IndexError]. *)
Lemma single_candidate_counterexample :
  let A := Zs [0; 1; 3]%Z in
  let B := Zs [0; 1; 3]%Z in
  length (Np.diff B) = 2
  /\ mse_profile (Np.diff B) (Np.square (Np.diff B)) (Np.slice (Np.diff A) 0 2) 2
     = Ok [0 # 2]%Q
  /\ match_chunks A B 2 = Raise IndexError
  /\ init (cut_fit 1) cut_lower A B 2 = Raise IndexError.
Proof.
  cbv zeta. split; [reflexivity|].
  split; [vm_compute; reflexivity|].
  split; vm_compute; reflexivity.
Qed.

(** ** The flags and the chunks they are read for *)

Lemma nth_error_combine_inv {X Y : Type} (l : list X) (l' : list Y) (k : nat)
    (a : X) (b : Y) :
  nth_error (combine l l') k = Some (a, b) ->
  nth_error l k = Some a /\ nth_error l' k = Some b.
Proof.
  revert l l'; induction k as [|k IH]; intros [|x l] [|y l'] H;
    simpl in *; try discriminate.
  - injection H as -> ->. auto.
  - auto.
Qed.

Section Flags.

Variable model : Type.
Variable gmm_fit : list Q -> model.
Variable gmm_lower : model -> Q -> bool.

(** When every recorded error has a finite logarithm, line 43 discards
    nothing and the flag [zip] pairs with a chunk is the label of the
    chunk's own best error. *)
Lemma flags_follow_own_min (A B : list Q) (cs : nat)
    (starts : list nat) (fits : list chunk_fit)
    (chunks : list (nat * nat * bool)) :
  match_chunks A B cs = Ok (starts, fits) ->
  classify gmm_fit gmm_lower A B cs = Ok chunks ->
  (forall f, In f fits -> (0 < min_mse f)%Q /\ (0 < second_mse f)%Q) ->
  log_mse fits = map min_mse fits ++ map second_mse fits
  /\ forall k csA csB v,
       nth_error chunks k = Some (csA, csB, v) ->
       exists f, nth_error fits k = Some f
                 /\ best_offset f = csB
                 /\ v = gmm_lower (gmm_fit (log_mse fits)) (min_mse f).
Proof.
  intros Hm Hc Hpos.
  assert (Hlog : log_mse fits = map min_mse fits ++ map second_mse fits).
  { unfold log_mse. apply forallb_filter_id, forallb_forall.
    intros x Hx. apply Qltb_true.
    apply in_app_or in Hx as [Hx|Hx]; apply in_map_iff in Hx as (f & <- & Hf);
      apply (Hpos f Hf). }
  split; [assumption|].
  intros k csA csB v Hk.
  apply classify_Ok in Hc as (starts' & fits' & Hm' & _ & ->).
  rewrite Hm in Hm'. injection Hm' as <- <-.
  apply nth_error_combine_inv in Hk as (Hk & Hv).
  apply nth_error_combine_inv in Hk as (_ & Hb).
  rewrite nth_error_map in Hb.
  destruct (nth_error fits k) as [f|] eqn:Hf; [|discriminate].
  injection Hb as <-. exists f. split; [reflexivity|]. split; [reflexivity|].
  rewrite Hlog in Hv at 2. rewrite nth_error_map in Hv.
  rewrite nth_error_app1 in Hv
    by (rewrite length_map; apply nth_error_Some; congruence).
  rewrite nth_error_map, Hf in Hv. simpl in Hv. congruence.
Qed.

(** C2 at a failing input.  With [chunk_size = 2], A of five pulses and B
    equal to A but for its last pulse, the first chunk matches exactly: its
    best error is 0, whose logarithm line 43 discards, so the flags move up
    by one place.  Whatever the mixture, the second chunk (best error 1/2)
    is flagged with the label of 1, the second best error of the first
    chunk, and the first chunk with the label of 1/2. *)
Theorem flags_shift_after_exact_match :
  let A := Zs [0; 1; 3; 6; 10]%Z in
  let B := Zs [0; 1; 3; 6; 11]%Z in
  let fits := [ {| best_offset := 0; min_mse := 0 # 2; second_mse := 2 # 2 |};
                {| best_offset := 2; min_mse := 1 # 2; second_mse := 2 # 2 |} ] in
  let m := gmm_fit [1 # 2; 2 # 2; 2 # 2]%Q in
  match_chunks A B 2 = Ok ([0; 2], fits)
  /\ log_mse fits = [1 # 2; 2 # 2; 2 # 2]%Q
  /\ classify gmm_fit gmm_lower A B 2
     = Ok [ (0, 0, gmm_lower m (1 # 2)%Q); (2, 2, gmm_lower m (2 # 2)%Q) ].
Proof.
  cbv zeta.
  assert (Hm : match_chunks (Zs [0; 1; 3; 6; 10]%Z) (Zs [0; 1; 3; 6; 11]%Z) 2
               = Ok ([0; 2],
                     [ {| best_offset := 0; min_mse := 0 # 2; second_mse := 2 # 2 |};
                       {| best_offset := 2; min_mse := 1 # 2; second_mse := 2 # 2 |} ]))
    by (vm_compute; reflexivity).
  split; [exact Hm|]. split; [reflexivity|].
  unfold classify. rewrite Hm. reflexivity.
Qed.

End Flags.

(** The same run with a mixture that separates 1/2 from 1: the second chunk,
    whose own best error 1/2 lies in the lower component, is left out of the
    correspondence arrays. *)
Lemma flags_shift_example :
  let A := Zs [0; 1; 3; 6; 10]%Z in
  let B := Zs [0; 1; 3; 6; 11]%Z in
  cut_lower (3 # 4) (1 # 2) = true
  /\ init (cut_fit (3 # 4)) cut_lower A B 2
     = Ok {| pulse_times_A := A; pulse_times_B := B;
             cor_times_A := [Some 0; Some 1; None; None; None]%Q;
             cor_times_B := [Some 0; Some 1; None; None; None]%Q |}.
Proof.
  cbv zeta. split; vm_compute; reflexivity.
Qed.

(** ** Repeated construction *)

(** C9, as the code has it.  Line 44 gives the mixture no [random_state], so
    each construction has a fit of its own.  Two constructions from the same
    pulse times and chunk size whose fits label the pooled errors alike agree
    on the flags of the chunks and on the aligner they build: nothing but the
    labels of the mixture can differ between them. *)
Theorem construction_determined_by_labels
    (model1 model2 : Type)
    (gmm_fit1 : list Q -> model1) (gmm_lower1 : model1 -> Q -> bool)
    (gmm_fit2 : list Q -> model2) (gmm_lower2 : model2 -> Q -> bool)
    (A B : list Q) (cs : nat) :
  (forall starts fits,
      match_chunks A B cs = Ok (starts, fits) ->
      map (gmm_lower1 (gmm_fit1 (log_mse fits))) (log_mse fits)
      = map (gmm_lower2 (gmm_fit2 (log_mse fits))) (log_mse fits)) ->
  classify gmm_fit1 gmm_lower1 A B cs = classify gmm_fit2 gmm_lower2 A B cs
  /\ init gmm_fit1 gmm_lower1 A B cs = init gmm_fit2 gmm_lower2 A B cs.
Proof.
  intros H.
  assert (Hc : classify gmm_fit1 gmm_lower1 A B cs
               = classify gmm_fit2 gmm_lower2 A B cs).
  { unfold classify.
    destruct (match_chunks A B cs) as [[starts fits]|e] eqn:Hm; [|reflexivity].
    simpl. unfold valid_matches. rewrite (H starts fits eq_refl). reflexivity. }
  split; [assumption|]. unfold init. rewrite Hc. reflexivity.
Qed.

(** C9 fails as stated.  One pair of pulse trains, two fitted mixtures: one
    puts only the error 1/2 in its lower component, the other also the error
    16.  The first construction flags one chunk as a match, the second both,
    and the correspondence arrays differ. *)
Lemma two_constructions_counterexample :
  let A := Zs [0; 1; 3; 33; 73]%Z in
  let B := Zs [0; 1; 4; 94; 128; 172]%Z in
  (exists starts fits,
      match_chunks A B 2 = Ok (starts, fits)
      /\ Forall2 Qeq (log_mse fits) [1 # 2; 16 # 1; 2853 # 2; 1105 # 1]%Q)
  /\ classify (cut_fit (2 # 1)) cut_lower A B 2
     = Ok [(0, 0, true); (2, 3, false)]
  /\ classify (cut_fit (100 # 1)) cut_lower A B 2
     = Ok [(0, 0, true); (2, 3, true)]
  /\ (exists self1 self2,
         init (cut_fit (2 # 1)) cut_lower A B 2 = Ok self1
         /\ init (cut_fit (100 # 1)) cut_lower A B 2 = Ok self2
         /\ cor_times_B self1 = [Some 0; Some 1; None; None; None]%Q
         /\ cor_times_B self2
            = [Some 0; Some 1; Some (94 # 1); Some (128 # 1); None]%Q
         /\ cor_times_A self1 <> cor_times_A self2).
Proof.
  cbv zeta. split.
  - eexists; eexists; split; [vm_compute; reflexivity|].
    repeat (constructor; [reflexivity|]). constructor.
  - split; [vm_compute; reflexivity|]. split; [vm_compute; reflexivity|].
    eexists; eexists.
    split; [vm_compute; reflexivity|]. split; [vm_compute; reflexivity|].
    cbn [cor_times_A cor_times_B].
    split; [reflexivity|]. split; [reflexivity|]. discriminate.
Qed.

(** ** Aligning a pulse train with itself *)







Lemma sorted_adjacent (l : list Q) (i : nat) (a b : Q) :
  StronglySorted Qlt l ->
  nth_error l i = Some a -> nth_error l (S i) = Some b -> (a < b)%Q.
Proof.
  intros Hs; revert i; induction Hs as [|x l Hs IH Hall]; intros i Ha Hb.
  - destruct i; discriminate.
  - destruct i as [|i].
    + injection Ha as ->. rewrite Forall_forall in Hall.
      apply Hall. apply (nth_error_In l 0). exact Hb.
    + apply (IH i); assumption.
Qed.


Section Identity.

Variable model : Type.
Variable gmm_fit : list Q -> model.
Variable gmm_lower : model -> Q -> bool.





End Identity.

(** Without the hypothesis on repeats the entries need not be the pulse's
    own time.  The second chunk of this train repeats the first; its best
    offset is 0 and, once flagged, it writes the first two pulse times at
    indices 2 and 3, so the time of the third pulse is converted to 0. *)
Lemma identity_repeat_example :
  let A := Zs [0; 1; 3; 4; 6; 9; 14; 18; 25]%Z in
  exists self,
    init (cut_fit (100 # 1)) cut_lower A A 2 = Ok self
    /\ cor_times_B self
       = [Some 0; Some 1; Some 0; Some 1; None; None; None; None; None]%Q
    /\ A_to_B self (3 # 1) = Ok (Some 0%Q).
Proof.
  cbv zeta. eexists. split; [vm_compute; reflexivity|].
  split; vm_compute; reflexivity.
Qed.


(** ** The theorems at concrete runs *)

Lemma run_init : init (cut_fit 1) cut_lower run_A run_B 2 = Ok run_self.
Proof. vm_compute; reflexivity. Qed.

Lemma run_sorted : StronglySorted Qlt run_A /\ StronglySorted Qlt run_B.
Proof. split; sorted_Q. Qed.



Lemma match_chunk_records_witness :
  2 < length (Np.diff run_B)
  /\ exists f,
       match_chunk (Np.diff run_A) (Np.diff run_B) (Np.square (Np.diff run_B))
         2 2 = Ok f
       /\ best_offset f = 3.
Proof.
  split; [simpl; lia|].
  destruct (match_chunk_records (Np.diff run_A) (Np.diff run_B) 2 2)
    as (mse & _ & _ & _ & H); [lia | simpl; lia | simpl; lia |].
  destruct H as (f & Hf & _ & _); [simpl; lia|].
  exists f. split; [exact Hf|].
  vm_compute in Hf. injection Hf as <-. reflexivity.
Defined.

Lemma correspondence_invariant_witness :
  length (cor_times_A run_self) = length run_B
  /\ length (cor_times_B run_self) = length run_A.
Proof.
  destruct (correspondence_invariant _ (cut_fit 1) cut_lower run_A run_B 2
              run_self run_init) as (chunks & _ & HA & HB & _).
  split; assumption.
Defined.

Lemma out_of_range_is_nan_witness :
  A_to_B run_self (11 # 1)%Q = Ok None /\ B_to_A run_self (- (1))%Q = Ok None.
Proof.
  destruct run_sorted as (HsA & HsB).
  split.
  - destruct (out_of_range_is_nan _ (cut_fit 1) cut_lower run_A run_B 2
                run_self (11 # 1)%Q run_init HsA HsB) as (H & _).
    apply H. right. intros i x y Hx Hy.
    do 5 (destruct i as [|i]; [simpl in Hx, Hy; try discriminate;
                               injection Hx as <-; reflexivity|]).
    destruct i; discriminate.
  - destruct (out_of_range_is_nan _ (cut_fit 1) cut_lower run_A run_B 2
                run_self (- (1))%Q run_init HsA HsB) as (_ & H).
    apply H. left. intros i x y Hx Hy.
    do 6 (destruct i as [|i]; [simpl in Hx, Hy; try discriminate;
                               injection Hx as <-; reflexivity|]).
    destruct i; discriminate.
Defined.

Lemma converters_use_adjacent_points_witness :
  B_to_A run_self (10 # 1)%Q = Ok None.
Proof.
  destruct run_sorted as (HsA & HsB).
  destruct (converters_use_adjacent_points _ (cut_fit 1) cut_lower
              run_A run_B 2 run_self (10 # 1)%Q run_init HsA HsB)
    as (_ & _ & H & _).
  apply (H 2 (4 # 1)%Q None (20 # 1)%Q (Some (3 # 1)%Q));
    try reflexivity; discriminate.
Defined.


Lemma construction_determined_by_labels_witness :
  init (cut_fit 1) cut_lower run_A run_B 2
  = init (cut_fit (2 # 1)%Q) cut_lower run_A run_B 2.
Proof.
  apply (construction_determined_by_labels _ _ (cut_fit 1) cut_lower
           (cut_fit (2 # 1)%Q) cut_lower run_A run_B 2).
  intros starts fits H. vm_compute in H. injection H as <- <-.
  vm_compute. reflexivity.
Defined.





(** * Further properties of the aligner *)

(** ** Conversions at the sync pulses themselves *)

Lemma sorted_lt_index (l : list Q) (i j : nat) (a b : Q) :
  StronglySorted Qlt l -> i < j ->
  nth_error l i = Some a -> nth_error l j = Some b -> (a < b)%Q.
Proof.
  intros Hs; revert i j; induction Hs as [|x l Hs IH Hall]; intros i j Hij Ha Hb.
  - destruct i; discriminate.
  - destruct j as [|j]; [lia|]. destruct i as [|i].
    + injection Ha as ->. rewrite Forall_forall in Hall.
      apply Hall. apply (nth_error_In l j). exact Hb.
    + apply (IH i j); [lia | exact Ha | exact Hb].
Qed.

Lemma interp_at_sample (xp : list Q) (fp : list (option Q)) (j : nat)
    (x : Q) (y : option Q) :
  StronglySorted Qlt xp -> length xp = length fp ->
  nth_error xp j = Some x -> nth_error fp j = Some y ->
  Np.interp x xp fp = Ok y.
Proof.
  intros Hs Hl Hx Hy.
  destruct (interp_spec x xp fp Hs Hl) as (Hin & Hlast).
  destruct (nth_error xp (S j)) as [x1|] eqn:Hx1.
  - destruct (nth_error fp (S j)) as [y1|] eqn:Hy1.
    + rewrite (Hin j x y x1 y1); auto.
      * rewrite Qeq_bool_refl. reflexivity.
      * apply Qle_refl.
      * apply (sorted_adjacent xp j); assumption.
    + apply nth_error_None in Hy1.
      assert (S j < length xp) by (apply nth_error_Some; congruence). lia.
  - apply nth_error_None in Hx1.
    assert (j < length xp) by (apply nth_error_Some; congruence).
    apply (Hlast x y); [| | reflexivity];
      replace (length xp - 1) with j by lia; assumption.
Qed.

Lemma full_nan_not_value (n i : nat) (y : Q) :
  nth_error (Np.full_nan n) i <> Some (Some y).
Proof.
  intros E. apply nth_error_In, repeat_spec in E. discriminate.
Qed.

Section Pulses.

Variable model : Type.
Variable gmm_fit : list Q -> model.
Variable gmm_lower : model -> Q -> bool.

(** The triples of [classify], position by position. *)
Lemma classify_nth (A B : list Q) (cs : nat) (chunks : list (nat * nat * bool))
    (a b : nat) (v : bool) :
  classify gmm_fit gmm_lower A B cs = Ok chunks ->
  In (a, b, v) chunks ->
  exists k f,
    nth_error chunks k = Some (a, b, v)
    /\ a = k * cs /\ 0 < cs /\ a + cs <= length (Np.diff A)
    /\ b = best_offset f
    /\ match_chunk (Np.diff A) (Np.diff B) (Np.square (Np.diff B)) cs a = Ok f.
Proof.
  intros Hc Hin.
  apply In_nth_error in Hin as (k & Hk). exists k.
  apply classify_Ok in Hc as (starts & fits & Hm & _ & E).
  apply match_chunks_Ok in Hm as (Hs & Hfits).
  pose proof Hk as Hk'. rewrite E in Hk'.
  apply nth_error_combine_inv in Hk' as (Hk' & _).
  apply nth_error_combine_inv in Hk' as (Ha & Hb).
  destruct (mapM_Ok_nth _ _ _ Hfits k a Ha) as (f & Hf & Hmc).
  rewrite nth_error_map, Hf in Hb. injection Hb as <-.
  destruct (chunk_in_A _ _ _ _ Hs (nth_error_In _ _ Ha)) as (Hpos & _ & HA).
  exists f. repeat split; auto.
  apply (arange_nth _ _ _ _ _ Hs Ha).
Qed.

(** One index of A lies in the run of at most one chunk. *)
Lemma chunk_of_index (A B : list Q) (cs : nat) (chunks : list (nat * nat * bool))
    (a b a' b' i : nat) (v v' : bool) :
  classify gmm_fit gmm_lower A B cs = Ok chunks ->
  In (a, b, v) chunks -> In (a', b', v') chunks ->
  a <= i < a + cs -> a' <= i < a' + cs ->
  a = a' /\ b = b'.
Proof.
  intros Hc H1 H2 Hi Hi'.
  destruct (classify_nth _ _ _ _ _ _ _ Hc H1) as (k & f & Hk & Ea & _).
  destruct (classify_nth _ _ _ _ _ _ _ Hc H2) as (k' & f' & Hk' & Ea' & _).
  assert (k = k') by nia. subst k'.
  rewrite Hk in Hk'. injection Hk' as <- <- <-. auto.
Qed.

(** X1.  In a constructed aligner over increasing pulse times, converting the
    time of a sync pulse of A gives back the entry of [cor_times_B] stored for
    that pulse, and converting the time of a sync pulse of B the entry of
    [cor_times_A]. *)
Theorem conversion_at_pulse (A B : list Q) (cs : nat) (self : Rsync_aligner) :
  init gmm_fit gmm_lower A B cs = Ok self ->
  StronglySorted Qlt A -> StronglySorted Qlt B ->
  (forall j x, nth_error A j = Some x ->
     exists y, nth_error (cor_times_B self) j = Some y
               /\ A_to_B self x = Ok y)
  /\ (forall j x, nth_error B j = Some x ->
        exists y, nth_error (cor_times_A self) j = Some y
                  /\ B_to_A self x = Ok y).
Proof.
  intros H HsA HsB.
  destruct (init_shape _ gmm_fit gmm_lower _ _ _ _ H)
    as (EA & EB & LA & LB & _ & _).
  unfold A_to_B, B_to_A. rewrite EA, EB. split; intros j x Hx.
  - destruct (nth_error (cor_times_B self) j) as [y|] eqn:Hy.
    + exists y. split; [reflexivity|].
      apply (interp_at_sample A (cor_times_B self) j); auto.
    + apply nth_error_None in Hy.
      assert (j < length A) by (apply nth_error_Some; congruence). lia.
  - destruct (nth_error (cor_times_A self) j) as [y|] eqn:Hy.
    + exists y. split; [reflexivity|].
      apply (interp_at_sample B (cor_times_A self) j); auto.
    + apply nth_error_None in Hy.
      assert (j < length B) by (apply nth_error_Some; congruence). lia.
Qed.

(** X2.  In a constructed aligner over increasing pulse times, a pulse of B
    with a correspondence converts to a pulse of A that converts back to it:
    for [cor_times_A[k] = a], [B_to_A(pulse_times_B[k])] is [a] and
    [A_to_B(a)] is [pulse_times_B[k]]. *)
Theorem round_trip_from_B (A B : list Q) (cs : nat) (self : Rsync_aligner) :
  init gmm_fit gmm_lower A B cs = Ok self ->
  StronglySorted Qlt A -> StronglySorted Qlt B ->
  forall k y a,
    nth_error B k = Some y ->
    nth_error (cor_times_A self) k = Some (Some a) ->
    B_to_A self y = Ok (Some a) /\ A_to_B self a = Ok (Some y).
Proof.
  intros H HsA HsB k y a Hy Ha.
  destruct (init_shape _ gmm_fit gmm_lower _ _ _ _ H)
    as (EA & EB & LA & LB & _ & _).
  destruct (init_filled _ gmm_fit gmm_lower _ _ _ _ H)
    as (chunks & Hc & _ & _ & Hch & HinB & HwA & HwB).
  unfold A_to_B, B_to_A. rewrite EA, EB.
  split; [apply (interp_at_sample B (cor_times_A self) k); auto|].
  destruct (HwA k) as [(a1 & b1 & Hin & Hr & E)|(_ & E)];
    [| rewrite Ha in E; symmetry in E; apply full_nan_not_value in E;
       contradiction].
  rewrite Ha in E.
  destruct (nth_error A (a1 + (k - b1))) as [a'|] eqn:HA; [|discriminate].
  injection E as ->.
  apply (interp_at_sample A (cor_times_B self) (a1 + (k - b1))); auto.
  destruct (HwB (a1 + (k - b1))) as [(a2 & b2 & Hin2 & Hr2 & E2)|(Hn & _)].
  - destruct (chunk_of_index _ _ _ _ _ _ _ _ (a1 + (k - b1)) _ _ Hc Hin Hin2)
      as (<- & <-); [lia | lia |].
    rewrite E2. replace (b1 + (a1 + (k - b1) - a1)) with k by lia.
    rewrite Hy. reflexivity.
  - exfalso. apply Hn. exists a1, b1. split; [assumption | lia].
Qed.

(** X3.  When the windows of B taken by the chunks flagged as matches are
    pairwise disjoint, the round trip also holds from A: for
    [cor_times_B[i] = b], [A_to_B(pulse_times_A[i])] is [b] and [B_to_A(b)]
    is [pulse_times_A[i]]. *)
Theorem round_trip_from_A (A B : list Q) (cs : nat) (self : Rsync_aligner)
    (chunks : list (nat * nat * bool)) :
  init gmm_fit gmm_lower A B cs = Ok self ->
  classify gmm_fit gmm_lower A B cs = Ok chunks ->
  disjoint_windows cs chunks ->
  StronglySorted Qlt A -> StronglySorted Qlt B ->
  forall i x b,
    nth_error A i = Some x ->
    nth_error (cor_times_B self) i = Some (Some b) ->
    A_to_B self x = Ok (Some b) /\ B_to_A self b = Ok (Some x).
Proof.
  intros H Hc Hd HsA HsB i x b Hx Hb.
  destruct (init_shape _ gmm_fit gmm_lower _ _ _ _ H)
    as (EA & EB & LA & LB & _ & _).
  destruct (init_filled _ gmm_fit gmm_lower _ _ _ _ H)
    as (chunks' & Hc' & _ & _ & Hch & HinB & HwA & HwB).
  rewrite Hc in Hc'. injection Hc' as <-.
  unfold A_to_B, B_to_A. rewrite EA, EB.
  split; [apply (interp_at_sample A (cor_times_B self) i); auto|].
  destruct (HwB i) as [(a1 & b1 & Hin & Hr & E)|(_ & E)];
    [| rewrite Hb in E; symmetry in E; apply full_nan_not_value in E;
       contradiction].
  rewrite Hb in E.
  destruct (nth_error B (b1 + (i - a1))) as [b'|] eqn:HB; [|discriminate].
  injection E as ->.
  apply (interp_at_sample B (cor_times_A self) (b1 + (i - a1))); auto.
  destruct (HwA (b1 + (i - a1))) as [(a2 & b2 & Hin2 & Hr2 & E2)|(Hn & _)].
  - destruct (Hd a1 b1 a2 b2 (b1 + (i - a1)) Hin Hin2) as (<- & <-);
      [lia | lia |].
    rewrite E2. replace (a1 + (b1 + (i - a1) - b1)) with i by lia.
    rewrite Hx. reflexivity.
  - exfalso. apply Hn. exists a1, b1. split; [assumption | lia].
Qed.

End Pulses.

(** ** The end of the trains and the conditions of success *)

Lemma arange_length (stop step : nat) (starts : list nat) :
  Np.arange stop step = Ok starts ->
  length starts = (stop + step - 1) / step.
Proof.
  unfold Np.arange. destruct step as [|step'] eqn:E; [discriminate|].
  rewrite <- E. intros H. injection H as <-.
  rewrite length_map, length_seq. reflexivity.
Qed.

Lemma chunk_count (n cs : nat) :
  0 < cs -> (n - cs + cs - 1) / cs = (n - 1) / cs.
Proof.
  intros Hpos. destruct (Nat.le_gt_cases cs n) as [H|H].
  - f_equal. lia.
  - rewrite !Nat.div_small by lia. reflexivity.
Qed.

Lemma match_chunks_total (A B : list Q) (cs : nat) :
  0 < cs -> cs < length (Np.diff B) ->
  exists starts fits,
    match_chunks A B cs = Ok (starts, fits)
    /\ length starts = (length A - 1) / cs
    /\ length fits = length starts.
Proof.
  intros Hpos HB. unfold match_chunks.
  destruct (Np.arange (length A - cs) cs) as [starts|e] eqn:Hs;
    [| unfold Np.arange in Hs; destruct cs; [lia | discriminate]].
  destruct (mapM_total
              (match_chunk (Np.diff A) (Np.diff B) (Np.square (Np.diff B)) cs)
              starts) as (fits & Hfits).
  { intros c Hc. destruct (chunk_in_A _ _ _ _ Hs Hc) as (_ & _ & HA).
    pose proof (mse_profile_valid (Np.diff B)
                  (Np.slice (Np.diff A) c (c + cs)) cs Hpos
                  (slice_length _ _ _ HA) (Nat.lt_le_incl _ _ HB)) as Hmse.
    destruct (match_chunk_from_profile _ _ _ _ _ _ Hmse) as (_ & H2).
    destruct H2 as (f & Hf & _); [rewrite length_map, length_seq; lia|].
    exists f; exact Hf. }
  exists starts, fits. simpl bind. rewrite Hfits. simpl.
  split; [reflexivity|]. split.
  - rewrite (arange_length _ _ _ Hs). apply chunk_count; assumption.
  - apply (mapM_Ok_length _ _ _ Hfits).
Qed.

Section Success.

Variable model : Type.
Variable gmm_fit : list Q -> model.
Variable gmm_lower : model -> Q -> bool.

Lemma flagged_in_B (A B : list Q) (cs : nat) (chunks : list (nat * nat * bool))
    (a b : nat) (v : bool) :
  classify gmm_fit gmm_lower A B cs = Ok chunks ->
  cs <= length (Np.diff B) ->
  In (a, b, v) chunks ->
  a + cs < length A /\ b + cs < length B.
Proof.
  intros Hc HB Hin.
  destruct (classify_chunk_in_A _ gmm_fit gmm_lower _ _ _ _ Hc a b v Hin)
    as (_ & HA).
  destruct (classify_nth _ gmm_fit gmm_lower _ _ _ _ _ _ _ Hc Hin)
    as (k & f & _ & _ & Hpos & HA' & -> & Hmc).
  apply match_chunk_valid_Ok in Hmc; auto.
  rewrite diff_length in Hmc, HB. split; [assumption | lia].
Qed.

(** X4.  The last sync pulse of A never gets a correspondence: in a
    constructed aligner every index of [cor_times_B] that holds a value is
    below the last one, so over increasing pulse times [A_to_B(t)] is [nan]
    for every [t] at or after the last pulse of A.  When B has at least
    [chunk_size] intervals the same holds for the last pulse of B and
    [B_to_A]. *)
Theorem last_pulse_unmatched (A B : list Q) (cs : nat) (self : Rsync_aligner) :
  init gmm_fit gmm_lower A B cs = Ok self ->
  ((forall i y, nth_error (cor_times_B self) i = Some (Some y) ->
                i + 1 < length A)
   /\ (StronglySorted Qlt A ->
       forall t x, nth_error A (length A - 1) = Some x -> (x <= t)%Q ->
                   A_to_B self t = Ok None))
  /\ (cs <= length (Np.diff B) ->
      (forall i y, nth_error (cor_times_A self) i = Some (Some y) ->
                   i + 1 < length B)
      /\ (StronglySorted Qlt B ->
          forall t x, nth_error B (length B - 1) = Some x -> (x <= t)%Q ->
                      B_to_A self t = Ok None)).
Proof.
  intros H.
  destruct (init_shape _ gmm_fit gmm_lower _ _ _ _ H)
    as (EA & EB & LA & LB & NA & NB).
  destruct (init_filled _ gmm_fit gmm_lower _ _ _ _ H)
    as (chunks & Hc & _ & _ & Hch & _ & HwA & HwB).
  assert (HiB : forall i y, nth_error (cor_times_B self) i = Some (Some y) ->
                            i + 1 < length A).
  { intros i y Hy. destruct (HwB i) as [(a & b & Hin & Hr & _)|(_ & E)].
    - destruct (Hch a b true Hin). lia.
    - rewrite Hy in E. symmetry in E. apply full_nan_not_value in E.
      contradiction. }
  split; [split; [exact HiB|]|].
  - intros Hs t x Hx Ht. unfold A_to_B. rewrite EA.
    apply interp_outside; auto. right. intros i x' y Hx' Hy.
    pose proof (HiB i y Hy) as Hi.
    pose proof (sorted_lt_index A i (length A - 1) x' x Hs ltac:(lia) Hx' Hx).
    lra.
  - intros HB.
    assert (HiA : forall i y, nth_error (cor_times_A self) i = Some (Some y) ->
                              i + 1 < length B).
    { intros i y Hy. destruct (HwA i) as [(a & b & Hin & Hr & _)|(_ & E)].
      - destruct (flagged_in_B _ _ _ _ _ _ _ Hc HB Hin). lia.
      - rewrite Hy in E. symmetry in E. apply full_nan_not_value in E.
        contradiction. }
    split; [exact HiA|].
    intros Hs t x Hx Ht. unfold B_to_A. rewrite EB.
    apply interp_outside; auto. right. intros i x' y Hx' Hy.
    pose proof (HiA i y Hy) as Hi.
    pose proof (sorted_lt_index B i (length B - 1) x' x Hs ltac:(lia) Hx' Hx).
    lra.
Qed.

(** X5.  With a positive [chunk_size] and more than [chunk_size] intervals in
    B, the matching loop returns one record for each of the
    [(len(pulse_times_A) - 1) // chunk_size] chunks of A, and the only way
    construction can fail is the mixture fit: an aligner is returned when at
    least two of the recorded errors have a finite logarithm, and
    [ValueError] is raised otherwise. *)
Theorem construction_succeeds (A B : list Q) (cs : nat) :
  0 < cs -> cs < length (Np.diff B) ->
  exists starts fits,
    match_chunks A B cs = Ok (starts, fits)
    /\ length starts = (length A - 1) / cs
    /\ length fits = length starts
    /\ (2 <= length (log_mse fits) ->
        exists self, init gmm_fit gmm_lower A B cs = Ok self)
    /\ (length (log_mse fits) < 2 ->
        init gmm_fit gmm_lower A B cs = Raise ValueError).
Proof.
  intros Hpos HB.
  destruct (match_chunks_total A B cs Hpos HB) as (starts & fits & Hm & Ls & Lf).
  exists starts, fits. repeat (split; [assumption|]). split.
  - intros Hpool.
    assert (Hc : exists chunks, classify gmm_fit gmm_lower A B cs = Ok chunks).
    { unfold classify, valid_matches. rewrite Hm. simpl.
      destruct (Nat.ltb_spec (length (log_mse fits)) 2); [lia|]. simpl. eauto. }
    destruct Hc as (chunks & Hc).
    destruct (fill_total A B cs chunks) with
      (cor_A := Np.full_nan (length B)) (cor_B := Np.full_nan (length A))
      as ([cA cB] & Hf).
    + intros a b Hin.
      destruct (flagged_in_B _ _ _ _ _ _ _ Hc (Nat.lt_le_incl _ _ HB) Hin).
      lia.
    + apply repeat_length.
    + apply repeat_length.
    + unfold init. rewrite Hc. simpl bind. rewrite Hf. simpl. eauto.
  - intros Hpool. unfold init, classify, valid_matches. rewrite Hm. simpl.
    destruct (Nat.ltb_spec (length (log_mse fits)) 2); [reflexivity | lia].
Qed.

End Success.

(** ** What the matching loop records *)





(** ** The matching sees the intervals only *)

Lemma Qlist_refl (l : list Q) : Forall2 Qeq l l.
Proof. induction l; constructor; [reflexivity | assumption]. Qed.

Lemma diff_shift (c : Q) (l : list Q) :
  Forall2 Qeq (Np.diff (shift c l)) (Np.diff l).
Proof.
  unfold shift. induction l as [|x l IH]; [constructor|].
  destruct l as [|y l]; [constructor|].
  change (Forall2 Qeq ((c + y - (c + x))%Q :: Np.diff (map (Qplus c) (y :: l)))
                      ((y - x)%Q :: Np.diff (y :: l))).
  constructor; [ring | exact IH].
Qed.

Lemma Qlist_length (l l' : list Q) : Forall2 Qeq l l' -> length l = length l'.
Proof. induction 1; simpl; congruence. Qed.

Lemma square_eq (l l' : list Q) :
  Forall2 Qeq l l' -> Forall2 Qeq (Np.square l) (Np.square l').
Proof.
  induction 1 as [|x y l l' E _ IH]; simpl; constructor; [|assumption].
  rewrite E; reflexivity.
Qed.

Lemma skipn_eq (n : nat) (l l' : list Q) :
  Forall2 Qeq l l' -> Forall2 Qeq (skipn n l) (skipn n l').
Proof.
  intros H; revert n; induction H; intros [|n]; simpl; auto.
Qed.

Lemma firstn_eq (n : nat) (l l' : list Q) :
  Forall2 Qeq l l' -> Forall2 Qeq (firstn n l) (firstn n l').
Proof.
  intros H; revert n; induction H; intros [|n]; simpl; auto.
Qed.

Lemma slice_eq (l l' : list Q) (s e : nat) :
  Forall2 Qeq l l' -> Forall2 Qeq (Np.slice l s e) (Np.slice l' s e).
Proof. intros H. unfold Np.slice. apply firstn_eq, skipn_eq, H. Qed.

Lemma dot_eq (a a' v v' : list Q) :
  Forall2 Qeq a a' -> Forall2 Qeq v v' -> (Np.dot a v == Np.dot a' v')%Q.
Proof.
  intros Ha; revert v v'; induction Ha as [|x x' a a' Ex _ IH]; intros v v' Hv.
  - reflexivity.
  - destruct Hv as [|y y' v v' Ey Hv]; simpl; [reflexivity|].
    rewrite Ex, Ey, (IH v v' Hv). reflexivity.
Qed.

Lemma sum_eq (l l' : list Q) : Forall2 Qeq l l' -> (Np.sum l == Np.sum l')%Q.
Proof.
  induction 1 as [|x y l l' E _ IH]; [reflexivity|].
  rewrite !sum_cons, E, IH. reflexivity.
Qed.

Lemma map_seq_eq (f g : nat -> Q) (l : list nat) :
  (forall k, (f k == g k)%Q) -> Forall2 Qeq (map f l) (map g l).
Proof.
  intros H; induction l; simpl; constructor; auto.
Qed.

Lemma map_eq (f g : Q -> Q) (l l' : list Q) :
  (forall x y, (x == y)%Q -> (f x == g y)%Q) ->
  Forall2 Qeq l l' -> Forall2 Qeq (map f l) (map g l').
Proof.
  intros H; induction 1; simpl; constructor; auto.
Qed.

Lemma correlate_nonempty (a v : list Q) :
  a <> [] -> v <> [] ->
  Np.correlate a v
  = if length v <=? length a
    then Ok (map (fun k => Np.dot (Np.slice a k (k + length v)) v)
                 (seq 0 (length a - length v + 1)))
    else Ok (map (fun i => Np.dot a (Np.slice v (length v - length a - i)
                                       (length v - length a - i + length a)))
                 (seq 0 (length v - length a + 1))).
Proof.
  intros Ha Hv. destruct a; [congruence|]. destruct v; [congruence|].
  reflexivity.
Qed.

Lemma correlate_eq (a a' v v' : list Q) :
  Forall2 Qeq a a' -> Forall2 Qeq v v' ->
  result_rel (Forall2 Qeq) (Np.correlate a v) (Np.correlate a' v').
Proof.
  intros Ha Hv.
  pose proof (Qlist_length _ _ Ha) as La.
  pose proof (Qlist_length _ _ Hv) as Lv.
  destruct a as [|x a].
  { destruct a'; [|discriminate]. destruct v, v'; reflexivity. }
  destruct a' as [|x' a']; [discriminate|].
  destruct v as [|y v].
  { destruct v'; [|discriminate]. reflexivity. }
  destruct v' as [|y' v']; [discriminate|].
  rewrite !correlate_nonempty by discriminate.
  rewrite <- La, <- Lv.
  destruct (length (y :: v) <=? length (x :: a)); unfold result_rel;
    apply map_seq_eq; intros k; apply dot_eq;
    try apply slice_eq; assumption.
Qed.

Lemma combine_minus_eq (a a' b b' : list Q) :
  Forall2 Qeq a a' -> Forall2 Qeq b b' ->
  Forall2 Qeq (map (fun p => (fst p - snd p)%Q) (combine a b))
              (map (fun p => (fst p - snd p)%Q) (combine a' b')).
Proof.
  intros Ha; revert b b'; induction Ha as [|x x' a a' Ex _ IH]; intros b b' Hb.
  - constructor.
  - destruct Hb as [|y y' b b' Ey Hb]; simpl; constructor; auto.
    rewrite Ex, Ey; reflexivity.
Qed.

Lemma broadcast2_minus_eq (a a' b b' : list Q) :
  Forall2 Qeq a a' -> Forall2 Qeq b b' ->
  result_rel (Forall2 Qeq) (Np.broadcast2 Qminus a b)
                           (Np.broadcast2 Qminus a' b').
Proof.
  intros Ha Hb.
  pose proof (Qlist_length _ _ Ha) as La.
  pose proof (Qlist_length _ _ Hb) as Lb.
  unfold Np.broadcast2. rewrite <- La, <- Lb.
  destruct (length a =? length b); cbn [result_rel].
  - apply combine_minus_eq; assumption.
  - clear La Lb. destruct Ha as [|x x' a a' Ex Ha].
    + destruct Hb as [|y y' b b' Ey Hb]; [reflexivity|].
      destruct Hb; cbn [result_rel]; [constructor | reflexivity].
    + destruct Ha as [|x2 x2' a a' Ex2 Ha]; cbn [result_rel].
      * apply map_eq; [|assumption].
        intros u w E. rewrite Ex, E. reflexivity.
      * destruct Hb as [|y y' b b' Ey Hb]; [reflexivity|].
        destruct Hb; cbn [result_rel]; [|reflexivity].
        apply (map_eq (fun u => (u - y)%Q) (fun u => (u - y')%Q)).
        -- intros u w E. rewrite Ey, E. reflexivity.
        -- repeat (constructor; try assumption).
Qed.

Lemma bind_rel {X Y : Type} (R : X -> X -> Prop) (S : Y -> Y -> Prop)
    (r r' : result X) (k k' : X -> result Y) :
  result_rel R r r' ->
  (forall x x', R x x' -> result_rel S (k x) (k' x')) ->
  result_rel S (bind r k) (bind r' k').
Proof.
  intros Hr Hk. destruct r, r'; simpl in *; try contradiction; auto.
Qed.

Lemma mse_profile_eq (IB IB' chunk chunk' : list Q) (cs : nat) :
  Forall2 Qeq IB IB' -> Forall2 Qeq chunk chunk' ->
  result_rel (Forall2 Qeq)
    (mse_profile IB (Np.square IB) chunk cs)
    (mse_profile IB' (Np.square IB') chunk' cs).
Proof.
  intros HB Hc. unfold mse_profile.
  apply (bind_rel (Forall2 Qeq));
    [apply correlate_eq; [apply square_eq; assumption | apply Qlist_refl]|].
  intros c1 c1' H1.
  apply (bind_rel (Forall2 Qeq)); [apply correlate_eq; assumption|].
  intros c2 c2' H2.
  apply (bind_rel (Forall2 Qeq)).
  - apply broadcast2_minus_eq.
    + apply map_eq; [|assumption]. intros u w E.
      rewrite E, (sum_eq _ _ (square_eq _ _ Hc)). reflexivity.
    + apply map_eq; [|assumption]. intros u w E. rewrite E. reflexivity.
  - intros n n' Hn. simpl. apply map_eq; [|assumption].
    intros u w E. rewrite E. reflexivity.
Qed.

Lemma Qltb_eq (x x' y y' : Q) :
  (x == x')%Q -> (y == y')%Q -> Np.Qltb x y = Np.Qltb x' y'.
Proof.
  intros Ex Ey. unfold Np.Qltb. rewrite Ex, Ey. reflexivity.
Qed.

Lemma argmin_from_eq (l l' : list Q) :
  Forall2 Qeq l l' ->
  forall best i bv bv', (bv == bv')%Q ->
    Np.argmin_from best bv i l = Np.argmin_from best bv' i l'.
Proof.
  induction 1 as [|x x' t t' Ex _ IH]; intros best i bv bv' Eb; simpl.
  - reflexivity.
  - rewrite (Qltb_eq x x' bv bv' Ex Eb).
    destruct (Np.Qltb x' bv'); apply IH; assumption.
Qed.

Lemma argmin_eq (l l' : list Q) :
  Forall2 Qeq l l' -> Np.argmin l = Np.argmin l'.
Proof.
  intros [|x x' t t' Ex H]; simpl; [reflexivity|].
  f_equal. apply argmin_from_eq; assumption.
Qed.

Lemma insert_eq (x x' : Q) (l l' : list Q) :
  (x == x')%Q -> Forall2 Qeq l l' ->
  Forall2 Qeq (Np.insert x l) (Np.insert x' l').
Proof.
  intros Ex; induction 1 as [|y y' t t' Ey H IH]; simpl.
  - repeat constructor. assumption.
  - rewrite Ex, Ey. destruct (Qle_bool x' y');
      repeat (constructor; try assumption).
Qed.

Lemma sort_eq (l l' : list Q) :
  Forall2 Qeq l l' -> Forall2 Qeq (Np.sort l) (Np.sort l').
Proof.
  induction 1; simpl; [constructor | apply insert_eq; assumption].
Qed.

Lemma getitem_eq (l l' : list Q) (i : nat) :
  Forall2 Qeq l l' ->
  result_rel Qeq (Np.getitem l i) (Np.getitem l' i).
Proof.
  intros H; revert i; induction H as [|x x' t t' Ex _ IH]; intros [|i];
    try reflexivity.
  - exact Ex.
  - apply IH.
Qed.

Lemma match_chunk_eq (IA IA' IB IB' : list Q) (cs c : nat) :
  Forall2 Qeq IA IA' -> Forall2 Qeq IB IB' ->
  result_rel fit_eq (match_chunk IA IB (Np.square IB) cs c)
                    (match_chunk IA' IB' (Np.square IB') cs c).
Proof.
  intros HA HB. unfold match_chunk.
  apply (bind_rel (Forall2 Qeq));
    [apply mse_profile_eq; [assumption | apply slice_eq; assumption]|].
  intros mse mse' Hm.
  rewrite (argmin_eq _ _ Hm).
  destruct (Np.argmin mse') as [b|e]; [|reflexivity]. simpl bind.
  apply (bind_rel Qeq); [apply getitem_eq, sort_eq, Hm|].
  intros m0 m0' E0.
  apply (bind_rel Qeq); [apply getitem_eq, sort_eq, Hm|].
  intros m1 m1' E1. simpl. repeat split; assumption.
Qed.

Lemma mapM_rel {X Y : Type} (S : Y -> Y -> Prop) (f g : X -> result Y)
    (l : list X) :
  (forall x, result_rel S (f x) (g x)) ->
  result_rel (Forall2 S) (mapM f l) (mapM g l).
Proof.
  intros H. induction l as [|x l IH]; simpl; [constructor|].
  apply (bind_rel S); [apply H|]. intros y y' Hy.
  apply (bind_rel (Forall2 S)); [exact IH|]. intros ys ys' Hys.
  simpl. constructor; assumption.
Qed.

(** The matching loop on trains of equal lengths and equal intervals. *)
Lemma match_chunks_eq (A A' B B' : list Q) (cs : nat) :
  length A = length A' ->
  Forall2 Qeq (Np.diff A) (Np.diff A') ->
  Forall2 Qeq (Np.diff B) (Np.diff B') ->
  same_matches (match_chunks A B cs) (match_chunks A' B' cs).
Proof.
  intros LA HA HB. unfold match_chunks. rewrite <- LA.
  destruct (Np.arange (length A - cs) cs) as [starts|e]; [|reflexivity].
  simpl bind.
  pose proof (mapM_rel fit_eq
                (match_chunk (Np.diff A) (Np.diff B) (Np.square (Np.diff B)) cs)
                (match_chunk (Np.diff A') (Np.diff B')
                   (Np.square (Np.diff B')) cs)
                starts (fun c => match_chunk_eq _ _ _ _ cs c HA HB)) as H.
  destruct (mapM _ starts) as [fits|e], (mapM _ starts) as [fits'|e'];
    simpl in *; try contradiction; auto.
Qed.

Lemma matching_ignores_clock_offsets_aux (a b : Q) (A B : list Q) (cs : nat) :
  same_matches (match_chunks (shift a A) (shift b B) cs) (match_chunks A B cs).
Proof.
  apply match_chunks_eq;
    [apply length_map | apply diff_shift | apply diff_shift].
Qed.

(** X8.  The matching loop sees the pulse times through their intervals
    only: when the clock of A runs [a] ahead and the clock of B runs [b]
    ahead, the loop fails or succeeds alike and records the same chunk starts
    and best offsets, with the same best and second best errors. *)
Theorem matching_ignores_clock_offsets (A B : list Q) (cs : nat) (a b : Q) :
  same_matches (match_chunks (shift a A) (shift b B) cs) (match_chunks A B cs).
Proof.
  exact (matching_ignores_clock_offsets_aux a b A B cs).
Qed.

(** ** Clock offsets *)

Lemma log_mse_eq (fits fits' : list chunk_fit) :
  Forall2 fit_eq fits fits' -> Forall2 Qeq (log_mse fits) (log_mse fits').
Proof.
  intros H. unfold log_mse.
  assert (Hall : Forall2 Qeq (map min_mse fits ++ map second_mse fits)
                             (map min_mse fits' ++ map second_mse fits')).
  { apply Forall2_app; induction H as [|f g t t' (_ & E1 & E2) _ IH]; simpl;
      constructor; assumption. }
  induction Hall as [|x x' t t' Ex _ IH]; simpl; [constructor|].
  assert (E : Np.log_isfinite x = Np.log_isfinite x')
    by (apply Qltb_eq; [reflexivity | assumption]).
  rewrite E. destruct (Np.log_isfinite x'); [constructor|]; assumption.
Qed.

Lemma best_offsets_eq (fits fits' : list chunk_fit) :
  Forall2 fit_eq fits fits' -> map best_offset fits = map best_offset fits'.
Proof.
  induction 1 as [|f g t t' (E & _) _ IH]; simpl; congruence.
Qed.

Lemma slice_map {X Y : Type} (f : X -> Y) (l : list X) (s e : nat) :
  Np.slice (map f l) s e = map f (Np.slice l s e).
Proof.
  unfold Np.slice. rewrite <- firstn_map, <- skipn_map. reflexivity.
Qed.

Lemma set_slice_map {X Y : Type} (f : X -> Y) (l v : list X) (s e : nat) :
  Np.set_slice (map f l) s e (map f v)
  = result_map (map f) (Np.set_slice l s e v).
Proof.
  unfold Np.set_slice. rewrite slice_map, !length_map.
  destruct (length v =? length (Np.slice l s e)).
  - simpl. rewrite !map_app, <- firstn_map, <- skipn_map. reflexivity.
  - destruct v as [|x [|y v]]; simpl; try reflexivity.
    rewrite !map_app, <- firstn_map, <- skipn_map, map_repeat. reflexivity.
Qed.

Lemma fill_shift (a b : Q) (A B : list Q) (cs : nat)
    (chunks : list (nat * nat * bool)) :
  forall cor_A cor_B,
    fill (shift a A) (shift b B) cs chunks
      (map (option_map (Qplus a)) cor_A) (map (option_map (Qplus b)) cor_B)
    = result_map (fun r => (map (option_map (Qplus a)) (fst r),
                            map (option_map (Qplus b)) (snd r)))
                 (fill A B cs chunks cor_A cor_B).
Proof.
  induction chunks as [|[[csA csB] v] chunks IH]; intros cor_A cor_B; simpl.
  - reflexivity.
  - destruct v; [|apply IH].
    unfold shift. rewrite !slice_map, !map_map.
    rewrite <- (map_map Some (option_map (Qplus a))).
    rewrite <- (map_map Some (option_map (Qplus b))).
    rewrite !set_slice_map.
    destruct (Np.set_slice cor_A csB (csB + cs)
                (map Some (Np.slice A csA (csA + cs)))) as [cA|e];
      [|reflexivity].
    simpl.
    destruct (Np.set_slice cor_B csA (csA + cs)
                (map Some (Np.slice B csB (csB + cs)))) as [cB|e];
      [|reflexivity].
    simpl. apply IH.
Qed.

Lemma full_nan_map (c : Q) (n : nat) :
  map (option_map (Qplus c)) (Np.full_nan n) = Np.full_nan n.
Proof. unfold Np.full_nan. rewrite map_repeat. reflexivity. Qed.

Section Offsets.

Variable model : Type.
Variable gmm_fit : list Q -> model.
Variable gmm_lower : model -> Q -> bool.

Lemma classify_shift (a b : Q) (A B : list Q) (cs : nat) :
  labels_by_value gmm_fit gmm_lower ->
  classify gmm_fit gmm_lower (shift a A) (shift b B) cs
  = classify gmm_fit gmm_lower A B cs.
Proof.
  intros Hmix. unfold classify.
  pose proof (matching_ignores_clock_offsets_aux a b A B cs) as H.
  destruct (match_chunks (shift a A) (shift b B) cs) as [[s' f']|e'],
           (match_chunks A B cs) as [[s f]|e];
    simpl in H; try contradiction; [|congruence].
  destruct H as (-> & Hf). simpl.
  pose proof (log_mse_eq _ _ Hf) as Hl.
  unfold valid_matches. rewrite (Qlist_length _ _ Hl).
  destruct (length (log_mse f) <? 2); [reflexivity|]. simpl.
  rewrite (best_offsets_eq _ _ Hf), (Hmix _ _ Hl). reflexivity.
Qed.

(** X9.  Construction follows constant clock offsets.  With a mixture whose
    labels depend on the values of its sample only, constructing from the
    pulse times of clocks that run [a] ahead on A and [b] ahead on B fails
    exactly when constructing from the original pulse times does, with the
    same exception, and otherwise returns the same aligner with every time
    of A moved by [a] and every time of B moved by [b], [nan] entries in the
    same places. *)
Theorem construction_follows_clock_offsets (a b : Q) (A B : list Q) (cs : nat) :
  labels_by_value gmm_fit gmm_lower ->
  init gmm_fit gmm_lower (shift a A) (shift b B) cs
  = result_map (shift_aligner a b) (init gmm_fit gmm_lower A B cs).
Proof.
  intros Hmix. unfold init. rewrite (classify_shift a b A B cs Hmix).
  destruct (classify gmm_fit gmm_lower A B cs) as [chunks|e]; [|reflexivity].
  simpl bind.
  pose proof (fill_shift a b A B cs chunks (Np.full_nan (length B))
                (Np.full_nan (length A))) as Hf.
  rewrite !full_nan_map in Hf.
  replace (length (shift b B)) with (length B)
    by (symmetry; apply length_map).
  replace (length (shift a A)) with (length A)
    by (symmetry; apply length_map).
  rewrite Hf.
  destruct (fill A B cs chunks (Np.full_nan (length B))
              (Np.full_nan (length A))) as [[cA cB]|e]; reflexivity.
Qed.

End Offsets.

Lemma Qle_bool_shift (a x y : Q) : Qle_bool (a + x) (a + y) = Qle_bool x y.
Proof.
  destruct (Qle_bool x y) eqn:E.
  - apply Qle_bool_iff. apply Qle_bool_iff in E. lra.
  - apply not_true_is_false. intros H. apply Qle_bool_iff in H.
    assert (Hxy : (x <= y)%Q) by lra.
    apply Qle_bool_iff in Hxy. congruence.
Qed.

Lemma Qltb_shift (a x y : Q) : Np.Qltb (a + x) (a + y) = Np.Qltb x y.
Proof. unfold Np.Qltb. rewrite Qle_bool_shift. reflexivity. Qed.

Lemma Qeq_bool_shift (a x y : Q) : Qeq_bool (a + x) (a + y) = Qeq_bool x y.
Proof.
  destruct (Qeq_bool x y) eqn:E.
  - apply Qeq_bool_iff. apply Qeq_bool_iff in E. lra.
  - apply not_true_is_false. intros H. apply Qeq_bool_iff in H.
    assert (Hxy : (x == y)%Q) by lra.
    apply Qeq_bool_iff in Hxy. congruence.
Qed.

Lemma nan_eq_refl (x : option Q) : nan_eq x x.
Proof. destruct x; simpl; [reflexivity | exact I]. Qed.

Lemma lerp_shift (a b x0 x1 t : Q) (y0 y1 : option Q) :
  nan_eq (Np.lerp (a + x0) (option_map (Qplus b) y0)
                  (a + x1) (option_map (Qplus b) y1) (a + t))
         (option_map (Qplus b) (Np.lerp x0 y0 x1 y1 t)).
Proof.
  destruct y0 as [q0|], y1 as [q1|]; simpl; try exact I.
  setoid_replace (a + x1 - (a + x0))%Q with (x1 - x0)%Q by ring.
  unfold Qdiv. ring.
Qed.

Lemma interp_from_shift (a b t : Q) (xs : list Q) :
  forall (ys : list (option Q)) (x0 : Q) (y0 : option Q),
    nan_eq (Np.interp_from (a + t) (a + x0) (option_map (Qplus b) y0)
              (combine (shift a xs) (map (option_map (Qplus b)) ys)))
           (option_map (Qplus b) (Np.interp_from t x0 y0 (combine xs ys))).
Proof.
  induction xs as [|x1 xs IH]; intros ys x0 y0.
  - simpl. rewrite Qeq_bool_shift.
    destruct (Qeq_bool t x0); [apply nan_eq_refl | exact I].
  - destruct ys as [|y1 ys].
    + simpl. rewrite Qeq_bool_shift.
      destruct (Qeq_bool t x0); [apply nan_eq_refl | exact I].
    + simpl combine. simpl Np.interp_from.
      rewrite Qltb_shift, Qeq_bool_shift.
      destruct (Np.Qltb t x1).
      * destruct (Qeq_bool t x0); [apply nan_eq_refl | apply lerp_shift].
      * apply IH.
Qed.

Lemma interp_shift (a b t : Q) (xp : list Q) (fp : list (option Q)) :
  result_rel nan_eq
    (Np.interp (a + t) (shift a xp) (map (option_map (Qplus b)) fp))
    (result_map (option_map (Qplus b)) (Np.interp t xp fp)).
Proof.
  unfold Np.interp, shift. rewrite !length_map.
  destruct (negb (length xp =? length fp)); [reflexivity|].
  destruct xp as [|x0 xs]; [reflexivity|].
  destruct fp as [|y0 ys]; [reflexivity|].
  simpl combine. cbn [result_map result_rel].
  rewrite Qltb_shift. destruct (Np.Qltb t x0); [exact I|].
  apply interp_from_shift.
Qed.

(** X10.  Conversion follows constant clock offsets: in the aligner seen from
    clocks that run [a] ahead on A and [b] ahead on B, [A_to_B(a + t)] is
    [b] plus what [A_to_B(t)] was, and [B_to_A(b + t)] is [a] plus what
    [B_to_A(t)] was, with [nan] and exceptions in the same cases. *)
Theorem conversion_follows_clock_offsets (a b t : Q) (self : Rsync_aligner) :
  result_rel nan_eq (A_to_B (shift_aligner a b self) (a + t))
                    (result_map (option_map (Qplus b)) (A_to_B self t))
  /\ result_rel nan_eq (B_to_A (shift_aligner a b self) (b + t))
                       (result_map (option_map (Qplus a)) (B_to_A self t)).
Proof.
  unfold A_to_B, B_to_A, shift_aligner; simpl. split; apply interp_shift.
Qed.

(** ** The timing errors of the diagnostic plot *)






Section Diagnostics.

Variable model : Type.
Variable gmm_fit : list Q -> model.
Variable gmm_lower : model -> Q -> bool.


End Diagnostics.

(** ** The simulated pulse trains *)
















(** ** Overlapping windows *)

Lemma fill_app (A B : list Q) (cs : nat) (l1 l2 : list (nat * nat * bool)) :
  forall cor_A cor_B,
    fill A B cs (l1 ++ l2) cor_A cor_B
    = bind (fill A B cs l1 cor_A cor_B)
           (fun r => fill A B cs l2 (fst r) (snd r)).
Proof.
  induction l1 as [|[[a b] v] l1 IH]; intros cor_A cor_B; simpl.
  - reflexivity.
  - destruct v; [|apply IH].
    destruct (Np.set_slice cor_A b (b + cs) _) as [cA|e]; [|reflexivity].
    simpl.
    destruct (Np.set_slice cor_B a (a + cs) _) as [cB|e]; [|reflexivity].
    simpl. apply IH.
Qed.

(** The last chunk flagged as a match whose window covers an index of B is
    the one whose pulse of A stays there. *)
Lemma fill_last_writer (A B : list Q) (cs : nat)
    (pre post : list (nat * nat * bool)) (a b i : nat)
    (cor_A cor_B cor_A' cor_B' : list (option Q)) :
  (forall csA csB v, In (csA, csB, v) (pre ++ (a, b, true) :: post) ->
     0 < cs /\ csA + cs <= length A) ->
  length cor_A = length B -> length cor_B = length A ->
  fill A B cs (pre ++ (a, b, true) :: post) cor_A cor_B = Ok (cor_A', cor_B') ->
  b <= i < b + cs ->
  ~ covered_A cs post i ->
  exists x, nth_error A (a + (i - b)) = Some x
            /\ nth_error cor_A' i = Some (Some x).
Proof.
  intros Hch LA LB Hf Hi Hpost.
  rewrite fill_app in Hf. apply bind_Ok in Hf as ([cA1 cB1] & Hpre & Hf).
  apply fill_spec in Hpre; auto;
    [| intros x y v Hin; apply (Hch x y v); apply in_or_app; left; assumption].
  destruct Hpre as (LA1 & LB1 & _). simpl fst in Hf; simpl snd in Hf.
  simpl in Hf.
  apply bind_Ok in Hf as (cA2 & H1 & Hf). apply bind_Ok in Hf as (cB2 & H2 & Hf).
  destruct (Hch a b true) as (Hpos & HA);
    [apply in_or_app; right; left; reflexivity|].
  destruct (fill_step _ _ _ _ _ _ _ _ _ Hpos HA LA1 LB1 H1 H2) as (HB & E1 & E2).
  assert (LvA : length (map Some (Np.slice A a (a + cs))) = cs)
    by (rewrite length_map, slice_length; lia).
  assert (LvB : length (map Some (Np.slice B b (b + cs))) = cs)
    by (rewrite length_map, slice_length; lia).
  apply fill_spec in Hf.
  - destruct Hf as (_ & _ & _ & HwA & _).
    destruct (HwA i) as [(a2 & b2 & Hin & Hr & _)|(_ & E)].
    + exfalso. apply Hpost. exists a2, b2. auto.
    + destruct (nth_error A (a + (i - b))) as [x|] eqn:Hx;
        [| apply nth_error_None in Hx; lia].
      exists x. split; [reflexivity|].
      rewrite E, E1, (nth_error_replace _ _ _ cs) by (auto; lia).
      destruct (Nat.leb_spec b i); [|lia].
      destruct (Nat.ltb_spec i (b + cs)); [|lia]. simpl.
      rewrite nth_error_map. replace i with (b + (i - b)) at 1 by lia.
      replace (b + (i - b) - b) with (i - b) by lia.
      rewrite slice_nth_error by lia. rewrite Hx. reflexivity.
  - intros x y v Hin. apply (Hch x y v).
    apply in_or_app; right; right; assumption.
  - rewrite E1, replace_length; auto; lia.
  - rewrite E2, replace_length; auto; lia.
Qed.

Section Overwrite.

Variable model : Type.
Variable gmm_fit : list Q -> model.
Variable gmm_lower : model -> Q -> bool.

(** X14.  When the windows of several chunks flagged as matches overlap in B,
    the chunk processed last wins: in a constructed aligner, at an index of B
    inside the window of a flagged chunk and of no flagged chunk after it,
    [cor_times_A] holds the pulse of A that this chunk pairs with the
    index. *)
Theorem later_chunk_overwrites (A B : list Q) (cs : nat) (self : Rsync_aligner)
    (pre post : list (nat * nat * bool)) (a b i : nat) :
  init gmm_fit gmm_lower A B cs = Ok self ->
  classify gmm_fit gmm_lower A B cs = Ok (pre ++ (a, b, true) :: post) ->
  b <= i < b + cs ->
  ~ covered_A cs post i ->
  exists x, nth_error A (a + (i - b)) = Some x
            /\ nth_error (cor_times_A self) i = Some (Some x).
Proof.
  intros H Hc Hi Hpost.
  apply init_Ok in H as (chunks & Hc' & Hf & _ & _).
  rewrite Hc in Hc'. injection Hc' as <-.
  apply (fill_last_writer A B cs pre post a b i _ _ _ _) in Hf; auto.
  - intros x y v Hin.
    destruct (classify_chunk_in_A _ gmm_fit gmm_lower _ _ _ _ Hc x y v Hin).
    split; [assumption | lia].
  - apply repeat_length.
  - apply repeat_length.
Qed.

End Overwrite.

(** ** The windows of the filling loop *)

Section Bounds.

Variable model : Type.
Variable gmm_fit : list Q -> model.
Variable gmm_lower : model -> Q -> bool.

(** C10.  When B has at least [chunk_size] intervals, every best offset the
    matching loop records satisfies
    [best_offset + chunk_size <= len(pulse_times_B) - 1], so the slices of
    lines 52-53 have exactly [chunk_size] entries.  The loop of lines 50-53
    then never fails, and at every chunk flagged as a match it turns the
    arrays [cor_A] and [cor_B] that the chunks before it have left into
    [cor_A] with the [chunk_size] entries from the best offset on replaced by
    the chunk's pulse times of A, and [cor_B] with the [chunk_size] entries
    from the chunk's start on replaced by the pulse times of the window of
    B. *)
Theorem best_offset_in_bounds (A B : list Q) (chunk_size : nat)
    (starts : list nat) (fits : list chunk_fit) :
  match_chunks A B chunk_size = Ok (starts, fits) ->
  chunk_size <= length (Np.diff B) ->
  (forall i csA f,
     nth_error starts i = Some csA -> nth_error fits i = Some f ->
     let csB := best_offset f in
     csB + chunk_size <= length B - 1
     /\ length (Np.slice A csA (csA + chunk_size)) = chunk_size
     /\ length (Np.slice B csB (csB + chunk_size)) = chunk_size)
  /\ forall chunks,
       classify gmm_fit gmm_lower A B chunk_size = Ok chunks ->
       (exists self, init gmm_fit gmm_lower A B chunk_size = Ok self)
       /\ forall pre csA csB post,
            chunks = pre ++ (csA, csB, true) :: post ->
            exists cor_A cor_B,
              fill A B chunk_size pre
                (Np.full_nan (length B)) (Np.full_nan (length A))
              = Ok (cor_A, cor_B)
              /\ length cor_A = length B /\ length cor_B = length A
              /\ csA + chunk_size <= length A - 1
              /\ csB + chunk_size <= length B - 1
              /\ fill A B chunk_size (pre ++ [(csA, csB, true)])
                   (Np.full_nan (length B)) (Np.full_nan (length A))
                 = Ok (firstn csB cor_A
                         ++ map Some (Np.slice A csA (csA + chunk_size))
                         ++ skipn (csB + chunk_size) cor_A,
                       firstn csA cor_B
                         ++ map Some (Np.slice B csB (csB + chunk_size))
                         ++ skipn (csA + chunk_size) cor_B).
Proof.
  intros Hm HB. split.
  - intros i csA f Hi Hf.
    apply match_chunks_Ok in Hm as (Hs & Hfits).
    destruct (chunk_in_A A chunk_size starts csA Hs (nth_error_In _ _ Hi))
      as (Hpos & HltA & HA).
    destruct (mapM_Ok_nth _ _ _ Hfits i csA Hi) as (f' & Hf' & Hmc).
    rewrite Hf in Hf'; inversion Hf'; subst f'; clear Hf'.
    apply match_chunk_valid_Ok in Hmc; auto.
    rewrite diff_length in Hmc.
    cbv zeta. split; [lia|]. split; apply slice_length; lia.
  - intros chunks Hc.
    assert (Hin : forall a b v, In (a, b, v) chunks ->
                    0 < chunk_size /\ a + chunk_size < length A
                    /\ b + chunk_size < length B).
    { intros a b v Hab.
      destruct (classify_chunk_in_A _ gmm_fit gmm_lower _ _ _ _ Hc a b v Hab).
      destruct (flagged_in_B _ gmm_fit gmm_lower _ _ _ _ _ _ _ Hc HB Hab).
      auto. }
    split.
    + destruct (fill_total A B chunk_size chunks) with
        (cor_A := Np.full_nan (length B)) (cor_B := Np.full_nan (length A))
        as ([cA cB] & Hf).
      * intros a b Hab. destruct (Hin a b true Hab) as (_ & ? & ?). lia.
      * apply repeat_length.
      * apply repeat_length.
      * unfold init. rewrite Hc. simpl bind. rewrite Hf. simpl. eauto.
    + intros pre csA csB post ->.
      assert (Hpre : forall a b v, In (a, b, v) pre ->
                       0 < chunk_size /\ a + chunk_size < length A
                       /\ b + chunk_size < length B)
        by (intros a b v Hab; apply (Hin a b v); apply in_or_app; auto).
      destruct (Hin csA csB true) as (Hpos & HA1 & HB1);
        [apply in_or_app; right; left; reflexivity|].
      destruct (fill_total A B chunk_size pre) with
        (cor_A := Np.full_nan (length B)) (cor_B := Np.full_nan (length A))
        as ([cA cB] & Hf).
      * intros a b Hab. destruct (Hpre a b true Hab) as (_ & ? & ?). lia.
      * apply repeat_length.
      * apply repeat_length.
      * exists cA, cB. split; [exact Hf|].
        destruct (fill_spec A B chunk_size pre) with
          (cor_A := Np.full_nan (length B)) (cor_B := Np.full_nan (length A))
          (cor_A' := cA) (cor_B' := cB) as (LA & LB & _);
          [ intros a b v Hab; destruct (Hpre a b v Hab) as (? & ? & _);
            split; [assumption | lia]
          | apply repeat_length | apply repeat_length | exact Hf |].
        split; [exact LA|]. split; [exact LB|].
        split; [lia|]. split; [lia|].
        rewrite fill_app, Hf. simpl.
        rewrite (set_slice_full cA _ csB chunk_size)
          by (rewrite ?length_map, ?slice_length; lia).
        simpl bind.
        rewrite (set_slice_full cB _ csA chunk_size)
          by (rewrite ?length_map, ?slice_length; lia).
        reflexivity.
Qed.

End Bounds.

(** ** Interpolated values *)

Lemma lerp_between (x0 x1 y0 y1 t : Q) :
  (x0 <= t)%Q -> (t < x1)%Q -> (y0 <= y1)%Q ->
  (y0 <= (y1 - y0) / (x1 - x0) * (t - x0) + y0)%Q
  /\ ((y1 - y0) / (x1 - x0) * (t - x0) + y0 <= y1)%Q.
Proof.
  intros H0 H1 Hy.
  assert (Hd : (0 < x1 - x0)%Q) by lra.
  set (lam := ((t - x0) / (x1 - x0))%Q).
  assert (Hlam0 : (0 <= lam)%Q).
  { unfold lam. apply Qle_shift_div_l; [assumption|]. lra. }
  assert (Hlam1 : (lam <= 1)%Q).
  { unfold lam. apply Qle_shift_div_r; [assumption|]. lra. }
  assert (E : ((y1 - y0) / (x1 - x0) * (t - x0) + y0
               == y0 + lam * (y1 - y0))%Q).
  { unfold lam. field. lra. }
  rewrite E.
  assert (Hp : (0 <= lam * (y1 - y0))%Q)
    by (apply Qmult_le_0_compat; lra).
  assert (Hq : (0 <= (1 - lam) * (y1 - y0))%Q)
    by (apply Qmult_le_0_compat; lra).
  split; [lra|].
  setoid_replace y1 with (y0 + lam * (y1 - y0) + (1 - lam) * (y1 - y0))%Q
    at 2 by ring.
  lra.
Qed.

Section Between.

Variable model : Type.
Variable gmm_fit : list Q -> model.
Variable gmm_lower : model -> Q -> bool.

(** X15.  No overshoot: in a constructed aligner over increasing pulse times,
    for [t] between two consecutive pulses of A whose correspondences [y0]
    and [y1] are defined and in order, [A_to_B(t)] is a time between [y0]
    and [y1]; likewise for [B_to_A] between two consecutive pulses of B. *)
Theorem conversion_stays_between (A B : list Q) (cs : nat)
    (self : Rsync_aligner) (t : Q) :
  init gmm_fit gmm_lower A B cs = Ok self ->
  StronglySorted Qlt A -> StronglySorted Qlt B ->
  (forall j x0 x1 y0 y1,
      nth_error A j = Some x0 -> nth_error A (S j) = Some x1 ->
      nth_error (cor_times_B self) j = Some (Some y0) ->
      nth_error (cor_times_B self) (S j) = Some (Some y1) ->
      (x0 <= t)%Q -> (t < x1)%Q -> (y0 <= y1)%Q ->
      exists v, A_to_B self t = Ok (Some v) /\ (y0 <= v)%Q /\ (v <= y1)%Q)
  /\ (forall j x0 x1 y0 y1,
        nth_error B j = Some x0 -> nth_error B (S j) = Some x1 ->
        nth_error (cor_times_A self) j = Some (Some y0) ->
        nth_error (cor_times_A self) (S j) = Some (Some y1) ->
        (x0 <= t)%Q -> (t < x1)%Q -> (y0 <= y1)%Q ->
        exists v, B_to_A self t = Ok (Some v) /\ (y0 <= v)%Q /\ (v <= y1)%Q).
Proof.
  intros H HsA HsB.
  destruct (init_shape _ gmm_fit gmm_lower _ _ _ _ H)
    as (EA & EB & LA & LB & _ & _).
  unfold A_to_B, B_to_A. rewrite EA, EB.
  destruct (interp_spec t A (cor_times_B self) HsA (eq_sym LB)) as (H1 & _).
  destruct (interp_spec t B (cor_times_A self) HsB (eq_sym LA)) as (H2 & _).
  split; intros j x0 x1 y0 y1 Hx0 Hx1 Hy0 Hy1 Ht0 Ht1 Hy.
  - rewrite (H1 j x0 (Some y0) x1 (Some y1)) by assumption.
    destruct (Qeq_bool t x0).
    + exists y0. split; [reflexivity|]. split; [apply Qle_refl | assumption].
    + eexists. split; [reflexivity|]. apply lerp_between; assumption.
  - rewrite (H2 j x0 (Some y0) x1 (Some y1)) by assumption.
    destruct (Qeq_bool t x0).
    + exists y0. split; [reflexivity|]. split; [apply Qle_refl | assumption].
    + eexists. split; [reflexivity|]. apply lerp_between; assumption.
Qed.

End Between.

(** ** The further properties at concrete runs *)

Lemma run_classify :
  classify (cut_fit 1) cut_lower run_A run_B 2
  = Ok [(0, 0, true); (2, 3, true)].
Proof. vm_compute; reflexivity. Qed.

Lemma run_disjoint : disjoint_windows 2 [(0, 0, true); (2, 3, true)].
Proof.
  intros a b a' b' i [E|[E|[]]] [E'|[E'|[]]] Hi Hi';
    injection E as <- <-; injection E' as <- <-; split; lia.
Qed.

Lemma run_matches :
  match_chunks run_A run_B 2
  = Ok ([0; 2],
        [ {| best_offset := 0; min_mse := 1 # 2; second_mse := 13 # 2 |};
          {| best_offset := 3; min_mse := 1 # 2; second_mse := 5 # 2 |} ]).
Proof. vm_compute; reflexivity. Qed.

Lemma best_offset_in_bounds_witness :
  2 <= length (Np.diff run_B)
  /\ 3 + 2 <= length run_B - 1
  /\ fill run_A run_B 2 ([(0, 0, true)] ++ [(2, 3, true)])
       (Np.full_nan (length run_B)) (Np.full_nan (length run_A))
     = Ok ([Some 0; Some 1; None; Some (3 # 1); Some (6 # 1); None]%Q,
           [Some 0; Some 1; Some (20 # 1); Some (23 # 1); None]%Q).
Proof.
  assert (HB : 2 <= length (Np.diff run_B)) by (simpl; lia).
  split; [exact HB|].
  destruct (best_offset_in_bounds _ (cut_fit 1) cut_lower run_A run_B 2 _ _
              run_matches HB) as (_ & H).
  destruct (H _ run_classify) as (_ & Hw).
  destruct (Hw [(0, 0, true)] 2 3 [] eq_refl)
    as (cA & cB & Hpre & _ & _ & _ & Hb & Hfill).
  split; [exact Hb|].
  vm_compute in Hpre. injection Hpre as <- <-. exact Hfill.
Defined.

Lemma cut_labels_by_value (c : Q) : labels_by_value (cut_fit c) cut_lower.
Proof.
  intros p p' H. unfold cut_fit.
  induction H as [|x x' t t' E _ IH]; simpl; [reflexivity|].
  rewrite IH. f_equal. unfold cut_lower.
  apply Qltb_eq; [assumption | reflexivity].
Qed.

Lemma conversion_at_pulse_witness :
  A_to_B run_self (3 # 1)%Q = Ok (Some (20 # 1)%Q).
Proof.
  destruct run_sorted as (HsA & HsB).
  destruct (conversion_at_pulse _ (cut_fit 1) cut_lower run_A run_B 2 run_self
              run_init HsA HsB) as (H & _).
  destruct (H 2 (3 # 1)%Q eq_refl) as (y & Hy & E).
  injection Hy as <-. exact E.
Defined.

Lemma round_trip_from_B_witness :
  B_to_A run_self (20 # 1)%Q = Ok (Some (3 # 1)%Q)
  /\ A_to_B run_self (3 # 1)%Q = Ok (Some (20 # 1)%Q).
Proof.
  destruct run_sorted as (HsA & HsB).
  apply (round_trip_from_B _ (cut_fit 1) cut_lower run_A run_B 2 run_self
           run_init HsA HsB 3); reflexivity.
Defined.

Lemma round_trip_from_A_witness :
  A_to_B run_self (6 # 1)%Q = Ok (Some (23 # 1)%Q)
  /\ B_to_A run_self (23 # 1)%Q = Ok (Some (6 # 1)%Q).
Proof.
  destruct run_sorted as (HsA & HsB).
  apply (round_trip_from_A _ (cut_fit 1) cut_lower run_A run_B 2 run_self
           [(0, 0, true); (2, 3, true)] run_init run_classify run_disjoint
           HsA HsB 3); reflexivity.
Defined.

Lemma last_pulse_unmatched_witness :
  A_to_B run_self (10 # 1)%Q = Ok None /\ B_to_A run_self (30 # 1)%Q = Ok None.
Proof.
  destruct run_sorted as (HsA & HsB).
  destruct (last_pulse_unmatched _ (cut_fit 1) cut_lower run_A run_B 2 run_self
              run_init) as ((_ & HA) & HB).
  split.
  - apply (HA HsA (10 # 1)%Q (10 # 1)%Q); [reflexivity | discriminate].
  - destruct HB as (_ & HB); [simpl; lia|].
    apply (HB HsB (30 # 1)%Q (28 # 1)%Q); [reflexivity | discriminate].
Defined.

Lemma construction_succeeds_witness :
  0 < 2 /\ 2 < length (Np.diff run_B)
  /\ exists self, init (cut_fit 1) cut_lower run_A run_B 2 = Ok self.
Proof.
  split; [lia|]. split; [simpl; lia|].
  destruct (construction_succeeds _ (cut_fit 1) cut_lower run_A run_B 2)
    as (starts & fits & Hm & _ & _ & Hok & _); [lia | simpl; lia |].
  apply Hok. rewrite run_matches in Hm. injection Hm as <- <-.
  vm_compute. lia.
Defined.





Lemma construction_follows_clock_offsets_witness :
  init (cut_fit 1) cut_lower (shift (7 # 1) run_A) (shift (- (2 # 1)) run_B) 2
  = Ok (shift_aligner (7 # 1) (- (2 # 1)) run_self).
Proof.
  rewrite (construction_follows_clock_offsets _ (cut_fit 1) cut_lower
             (7 # 1)%Q (- (2 # 1))%Q run_A run_B 2 (cut_labels_by_value 1)).
  rewrite run_init. reflexivity.
Defined.




Lemma repeat_init :
  init (cut_fit (100 # 1)) cut_lower repeat_A repeat_A 2 = Ok repeat_self.
Proof. vm_compute; reflexivity. Qed.

Lemma repeat_classify :
  classify (cut_fit (100 # 1)) cut_lower repeat_A repeat_A 2
  = Ok ([(0, 0, true)] ++ (2, 0, true) :: []).
Proof. vm_compute; reflexivity. Qed.

Lemma later_chunk_overwrites_witness :
  nth_error (cor_times_A repeat_self) 1 = Some (Some (4 # 1)%Q).
Proof.
  destruct (later_chunk_overwrites _ (cut_fit (100 # 1)) cut_lower
              repeat_A repeat_A 2 repeat_self [(0, 0, true)] [] 2 0 1
              repeat_init repeat_classify) as (x & Hx & H).
  - lia.
  - intros (a & b & [] & _).
  - injection Hx as <-. exact H.
Defined.

Lemma conversion_stays_between_witness :
  exists v, A_to_B run_self (5 # 1)%Q = Ok (Some v)
            /\ (20 # 1 <= v)%Q /\ (v <= 23 # 1)%Q.
Proof.
  destruct run_sorted as (HsA & HsB).
  destruct (conversion_stays_between _ (cut_fit 1) cut_lower run_A run_B 2
              run_self (5 # 1)%Q run_init HsA HsB) as (H & _).
  apply (H 2 (3 # 1)%Q (6 # 1)%Q); try reflexivity; discriminate.
Defined.

(** ** How the flags reach the chunks *)

Section Positional.

Variable model : Type.
Variable gmm_fit : list Q -> model.
Variable gmm_lower : model -> Q -> bool.

(** X16.  The flags are read by position: the loop of lines 50-53 reaches as
    many chunks as there are, or as there are errors with a finite logarithm
    if these are fewer, and the flag it uses for the chunk of rank [k] is
    the label the mixture gives to entry [k] of the sample [log_mse], whatever
    chunk that entry comes from.  Chunks of higher rank are never matched. *)
Theorem flags_are_positional (A B : list Q) (cs : nat)
    (starts : list nat) (fits : list chunk_fit)
    (chunks : list (nat * nat * bool)) :
  match_chunks A B cs = Ok (starts, fits) ->
  classify gmm_fit gmm_lower A B cs = Ok chunks ->
  length chunks = Nat.min (length starts) (length (log_mse fits))
  /\ forall k a b v,
       nth_error chunks k = Some (a, b, v) ->
       nth_error starts k = Some a
       /\ (exists f, nth_error fits k = Some f /\ b = best_offset f)
       /\ exists x, nth_error (log_mse fits) k = Some x
                    /\ v = gmm_lower (gmm_fit (log_mse fits)) x.
Proof.
  intros Hm Hc.
  apply classify_Ok in Hc as (starts' & fits' & Hm' & _ & ->).
  rewrite Hm in Hm'. injection Hm' as <- <-.
  apply match_chunks_Ok in Hm as (_ & Hfits).
  pose proof (mapM_Ok_length _ _ _ Hfits) as Lf.
  split.
  - rewrite !length_combine, !length_map, Lf, Nat.min_id. reflexivity.
  - intros k a b v Hk.
    apply nth_error_combine_inv in Hk as (Hk & Hv).
    apply nth_error_combine_inv in Hk as (Ha & Hb).
    split; [assumption|]. split.
    + rewrite nth_error_map in Hb.
      destruct (nth_error fits k) as [f|]; [|discriminate].
      injection Hb as <-. eauto.
    + rewrite nth_error_map in Hv.
      destruct (nth_error (log_mse fits) k) as [x|]; [|discriminate].
      injection Hv as <-. eauto.
Qed.

End Positional.

Lemma repeat_matches :
  match_chunks repeat_A repeat_A 2
  = Ok ([0; 2; 4; 6],
        [ {| best_offset := 0; min_mse := 0 # 2; second_mse := 0 # 2 |};
          {| best_offset := 0; min_mse := 0 # 2; second_mse := 0 # 2 |};
          {| best_offset := 4; min_mse := 0 # 2; second_mse := 5 # 2 |};
          {| best_offset := 6; min_mse := 0 # 2; second_mse := 5 # 2 |} ]).
Proof. vm_compute; reflexivity. Qed.

Lemma flags_are_positional_witness :
  exists chunks,
    classify (cut_fit (100 # 1)) cut_lower repeat_A repeat_A 2 = Ok chunks
    /\ length chunks = 2.
Proof.
  eexists. split; [exact repeat_classify|].
  destruct (flags_are_positional _ (cut_fit (100 # 1)) cut_lower
              repeat_A repeat_A 2 _ _ _ repeat_matches repeat_classify)
    as (H & _).
  exact H.
Defined.
